(** * A shallow embedding of the checked [String] / [StringView] types

    The development follows [src/str.h] and [src/str.cpp].  A [char] is an
    8-bit code unit ([ascii]); a [std::string] is the list of its code
    units; [int] and [size_t] values are integers whose range is never
    reached by the operations below (a length always fits an [int], as
    [String::length] assumes).  A call of [error(msg)] throws an
    [ErrorException]; the library exceptions thrown by [std::stoll] and
    [std::stoull] are kept apart because [radixConvert] catches them. *)

From Equations Require Import Equations.
From Stdlib Require Import Ascii String.
From Stdlib Require Import ZArith List Bool Arith Lia.
From Stdlib Require Import Numbers.DecimalString.
Import ListNotations.

Set Implicit Arguments.
Local Open Scope Z_scope.

(* ===================================================================== *)
(** ** Code units and text                                                *)
(* ===================================================================== *)

Definition char := ascii.
Definition bytes := list char.

(** A C++ literal, written as a Rocq string. *)
Definition str (s : string) : bytes := list_ascii_of_string s.

(** The value of a code unit as an unsigned 8-bit number. *)
Definition code (c : char) : Z := Z.of_nat (nat_of_ascii c).

(** The code unit with the given value (taken modulo 256). *)
Definition chr (n : Z) : char := ascii_of_nat (Z.to_nat (n mod 256)).

Definition NUL : char := chr 0.

Definition char_eqb (a b : char) : bool := Ascii.eqb a b.

(** Whether plain [char] is signed is left to the platform by C++; it is
    signed on x86 and x86-64.  [int_of_char] is the conversion [int(c)]:
    with a signed [char] a code unit of 0x80 or more is a negative number. *)
Definition int_of_char (char_signed : bool) (c : char) : Z :=
  if char_signed && (128 <=? code c) then code c - 256 else code c.

(** [<cctype>] in the default "C" locale.  Code units outside ASCII are in
    no class and have no other case. *)
Definition in_range (lo hi : Z) (c : char) : bool :=
  (lo <=? code c) && (code c <=? hi).

Definition isdigit (c : char) : bool := in_range 48 57 c.
Definition isupper (c : char) : bool := in_range 65 90 c.
Definition islower (c : char) : bool := in_range 97 122 c.
Definition isalpha (c : char) : bool := isupper c || islower c.
Definition isalnum (c : char) : bool := isalpha c || isdigit c.
Definition isspace (c : char) : bool := (code c =? 32) || in_range 9 13 c.
Definition tolower (c : char) : char := if isupper c then chr (code c + 32) else c.
Definition toupper (c : char) : char := if islower c then chr (code c - 32) else c.

(* ===================================================================== *)
(** ** Failures                                                           *)
(* ===================================================================== *)

(** The exceptions of [<stdexcept>] that [std::stoll]/[std::stoull] throw. *)
Inductive std_exception := invalid_argument | out_of_range.

Inductive exn :=
| ErrorException (msg : string)
| StdException (e : std_exception).

(** The outcome of a call: it returns, or it throws. *)
Inductive outcome (A : Type) :=
| Return (a : A)
| Throw (e : exn).
Arguments Return {A} a.
Arguments Throw {A} e.

(** [error.h] is not part of the sources.
    Modelled from the spec: [error] is the single reporting entry point; it
    takes the diagnostic message and the calling frame does not continue. *)
Definition error {A : Type} (msg : string) : outcome A :=
  Throw (ErrorException msg).

Definition bind {A B : Type} (m : outcome A) (k : A -> outcome B) : outcome B :=
  match m with
  | Return a => k a
  | Throw e => Throw e
  end.

Declare Scope outcome_scope.
Delimit Scope outcome_scope with outcome.
Notation "x <- m ;; k" := (bind m (fun x => k))
  (at level 61, m at next level, right associativity) : outcome_scope.
Notation "m ;;; k" := (bind m (fun _ => k))
  (at level 61, right associativity) : outcome_scope.
Open Scope outcome_scope.

Definition returns {A : Type} (m : outcome A) : bool :=
  match m with Return _ => true | Throw _ => false end.

(* ===================================================================== *)
(** ** [std::string] primitives                                           *)
(* ===================================================================== *)

(** [traits::compare(data + i, pat, n) == 0]: [pat] occurs at the front. *)
Fixpoint starts_with (pat s : bytes) : bool :=
  match pat, s with
  | [], _ => true
  | _ :: _, [] => false
  | p :: pat', c :: s' => char_eqb p c && starts_with pat' s'
  end.

(** The first position at which [pat] occurs in [s]; positions are counted
    from [i], the position of the head of [s]. *)
Fixpoint find_at (pat s : bytes) (i : nat) : option nat :=
  if starts_with pat s then Some i
  else match s with
       | [] => None
       | _ :: s' => find_at pat s' (S i)
       end.

(** [data.find(pat, pos, n)], [None] standing for [npos]. *)
Definition std_find (data pat : bytes) (pos : nat) : option nat :=
  if (length data <? pos)%nat then None else find_at pat (skipn pos data) pos.

(** [data.substr(pos, n)] for [pos <= size]: clamped to the rest. *)
Definition std_substr (data : bytes) (pos n : nat) : bytes :=
  firstn n (skipn pos data).

(** [data.erase(pos, n)] for [pos <= size]. *)
Definition std_erase (data : bytes) (pos n : nat) : bytes :=
  firstn pos data ++ skipn (pos + n)%nat data.

(** [data.replace(pos, n, with)] for [pos <= size]. *)
Definition std_replace (data : bytes) (pos n : nat) (w : bytes) : bytes :=
  firstn pos data ++ w ++ skipn (pos + n)%nat data.

(** Writing one element in place: [data[i] = c]. *)
Fixpoint std_store (data : bytes) (i : nat) (c : char) : bytes :=
  match data, i with
  | [], _ => []
  | _ :: rest, O => c :: rest
  | d :: rest, S j => d :: std_store rest j c
  end.

(* ===================================================================== *)
(** ** [StringView]                                                       *)
(* ===================================================================== *)

(** A view is a pair of pointers into storage it does not own.  The
    storage is kept with the view, and the two pointers are offsets into
    it, so that what lies behind [_end] can be read. *)
Record StringView := mkStringView {
  storage : bytes;
  _begin : Z;
  _end : Z
}.

(** [StringView(char ch)]: the two-byte value buffer. *)
Definition StringView_of_char (ch : char) : StringView :=
  mkStringView [ch; NUL] 0 1.

(** [StringView(const std::string&)]: [data()] is followed by a
    terminator, which is not part of the range. *)
Definition StringView_of_string (text : bytes) : StringView :=
  mkStringView (text ++ [NUL]) 0 (Z.of_nat (length text)).

(** [strlen]: the number of code units before the first terminator. *)
Fixpoint strlen (buf : bytes) : nat :=
  match buf with
  | [] => O
  | c :: rest => if char_eqb c NUL then O else S (strlen rest)
  end.

(** [StringView(const char* text)]: [None] is the null pointer; otherwise the
    pointer designates a buffer that holds a terminator. *)
Definition StringView_of_cstr (text : option bytes) : outcome StringView :=
  match text with
  | None => error "Cannot treat a null pointer as a String."
  | Some buf => Return (mkStringView buf 0 (Z.of_nat (strlen buf)))
  end.

Definition StringView_size (v : StringView) : Z := _end v - _begin v.

(** The viewed range [_begin, _end). *)
Definition StringView_bytes (v : StringView) : bytes :=
  firstn (Z.to_nat (StringView_size v)) (skipn (Z.to_nat (_begin v)) (storage v)).

(** [_begin[index]]: a read of the storage; nothing is returned when the
    address lies outside it. *)
Definition deref (v : StringView) (index : Z) : option char :=
  if _begin v + index <? 0 then None
  else nth_error (storage v) (Z.to_nat (_begin v + index)).

(** [StringView::operator[]].  The inner [option] is the read itself. *)
Definition StringView_at (v : StringView) (index : Z) : outcome (option char) :=
  if (index <? 0) || (index >? StringView_size v) then
    error "String index out of range."
  else Return (deref v index).

(** The pointers delimit a range of the storage that is followed by at
    least one more byte, as after each of the constructors. *)
Definition StringView_wf (v : StringView) : Prop :=
  0 <= _begin v <= _end v /\ _end v < Z.of_nat (length (storage v)).

(* ===================================================================== *)
(** ** [String]: the buffer and its version                               *)
(* ===================================================================== *)

(** [collections.h] is not part of the sources.
    Modelled from the spec: the [VersionTracker] is a counter that starts at
    an initial value and that [update] increments. *)
Definition VersionTracker := nat.
Definition VersionTracker_initial : VersionTracker := O.
Definition VersionTracker_update (v : VersionTracker) : VersionTracker := S v.

Record String := mkString {
  _data : bytes;
  _version : VersionTracker
}.

(** [String::String(StringView text)]. *)
Definition String_of_view (text : StringView) : String :=
  mkString (StringView_bytes text) VersionTracker_initial.

(** A [String] built from a [std::string] (through the view of it). *)
Definition String_of_string (text : bytes) : String :=
  String_of_view (StringView_of_string text).

(** [StringView(const String& text)]: [c_str()] up to [length()]. *)
Definition StringView_of_String (text : String) : StringView :=
  StringView_of_string (_data text).

Definition String_length (s : String) : Z := Z.of_nat (length (_data s)).

(** [String::updateVersion]. *)
Definition updateVersion (s : String) : String :=
  mkString (_data s) (VersionTracker_update (_version s)).

(** An [int] as [operator<<] writes it. *)
Definition show_int (n : Z) : string := NilZero.string_of_int (Z.to_int n).

(** [String::checkIndex]. *)
Definition checkIndex (index : Z) (why : string) (low high : Z) : outcome unit :=
  if (index <? low) || (index >? high) then
    error ("String::" ++ why ++ ": Index " ++ show_int index
           ++ " is out of range [" ++ show_int low ++ " .. " ++ show_int high ++ "]")
  else Return tt.

(** [char String::operator[](int) const]. *)
Definition String_at (s : String) (index : Z) : outcome char :=
  checkIndex index "operator[]" 0 (String_length s - 1) ;;;
  Return (nth (Z.to_nat index) (_data s) NUL).

(** [char& String::operator[](int)]: the reference it returns designates
    an element of [_data], given here by its position. *)
Definition String_at_ref (s : String) (index : Z) : outcome nat :=
  checkIndex index "operator[]" 0 (String_length s - 1) ;;;
  Return (Z.to_nat index).

(** Reading and writing through such a reference.  The write goes straight
    to the buffer: no member function of [String] runs. *)
Definition ref_load (s : String) (r : nat) : char := nth r (_data s) NUL.
Definition ref_store (s : String) (r : nat) (c : char) : String :=
  mkString (std_store (_data s) r c) (_version s).

(** The statement [t[i] = c]. *)
Definition String_assign_at (t : String) (i : Z) (c : char) : outcome String :=
  r <- String_at_ref t i ;; Return (ref_store t r c).

(** The expression [t[i]] read from a non-const [t]. *)
Definition String_read_at (t : String) (i : Z) : outcome char :=
  r <- String_at_ref t i ;; Return (ref_load t r).

(** [String::find]. *)
Definition String_find (s : String) (text : StringView) (startIndex : Z) : outcome Z :=
  if startIndex <? 0 then
    error "String::find: Start index must be greater than or equal to zero."
  else
    match std_find (_data s) (StringView_bytes text) (Z.to_nat startIndex) with
    | None => Return (-1)
    | Some result => Return (Z.of_nat result)
    end.

(** [String::remove(int, int)]. *)
Definition String_remove (s : String) (index length : Z) : outcome String :=
  checkIndex index "remove" 0 (String_length s) ;;;
  if length <? 0 then error "String::remove: Negative length."
  else Return (updateVersion
                 (mkString (std_erase (_data s) (Z.to_nat index) (Z.to_nat length))
                           (_version s))).

(** [String::insert]. *)
Definition String_insert (s : String) (index : Z) (text : StringView) : outcome String :=
  checkIndex index "insert" 0 (String_length s) ;;;
  Return (updateVersion
            (mkString (std_replace (_data s) (Z.to_nat index) 0 (StringView_bytes text))
                      (_version s))).

(** [String::operator+=]. *)
Definition String_append (s : String) (text : StringView) : String :=
  updateVersion (mkString (_data s ++ StringView_bytes text) (_version s)).

(** [String::toLowerCase] and [String::toUpperCase]: [std::transform]
    over the buffer, in place. *)
Definition String_toLowerCase (s : String) : String :=
  mkString (map tolower (_data s)) (_version s).

Definition String_toUpperCase (s : String) : String :=
  mkString (map toupper (_data s)) (_version s).

(** [trimStartInPlace]: [start] runs up over the leading white space. *)
Fixpoint trimStart_scan (rest : bytes) (start : nat) : nat :=
  match rest with
  | [] => start
  | c :: rest' => if isspace c then trimStart_scan rest' (S start) else start
  end.

Definition trimStartInPlace (str : bytes) : bytes :=
  let start := trimStart_scan str 0 in
  if (0 <? start)%nat then std_erase str 0 start else str.

(** [trimEndInPlace]: [finish] runs down over the trailing white space. *)
Fixpoint trimEnd_scan (str : bytes) (finish : nat) : nat :=
  match finish with
  | O => O
  | S f => if isspace (nth f str NUL) then trimEnd_scan str f else finish
  end.

Definition trimEndInPlace (str : bytes) : bytes :=
  let e := length str in
  let finish := trimEnd_scan str e in
  if (finish <? e)%nat then std_erase str finish (e - finish) else str.

Definition trimInPlace (str : bytes) : bytes :=
  trimStartInPlace (trimEndInPlace str).

(** [String::trimFront], [String::trimBack], [String::trim]. *)
Definition String_trimFront (s : String) : String :=
  updateVersion (mkString (trimStartInPlace (_data s)) (_version s)).
Definition String_trimBack (s : String) : String :=
  updateVersion (mkString (trimEndInPlace (_data s)) (_version s)).
Definition String_trim (s : String) : String :=
  updateVersion (mkString (trimInPlace (_data s)) (_version s)).

(** [String::trimmed]: a copy, trimmed. *)
Definition String_trimmed (s : String) : String := String_trim s.

(** Modelled from the spec: a cursor ([CheckedIterator], declared in
    [collections.h]) keeps the version it was issued at and a position;
    every use of it first compares that version with the owner's. *)
Record Cursor := mkCursor {
  cursor_version : VersionTracker;
  cursor_pos : nat
}.

Definition String_begin (s : String) : Cursor := mkCursor (_version s) 0.
Definition String_end (s : String) : Cursor := mkCursor (_version s) (length (_data s)).

Definition cursor_valid (owner : String) (c : Cursor) : bool :=
  Nat.eqb (_version owner) (cursor_version c).

(* ===================================================================== *)
(** ** Split, join and replace-all                                        *)
(* ===================================================================== *)

(** Where [find] reports a match, the match lies inside the text. *)
Lemma starts_with_length (pat s : bytes) :
  starts_with pat s = true -> (length pat <= length s)%nat.
Proof.
  revert s; induction pat as [|p pat IH]; intros [|c s] H; simpl in *;
    try lia; try discriminate.
  apply andb_prop in H as [_ H]. apply IH in H. lia.
Qed.

Lemma find_at_bound (pat s : bytes) (i k : nat) :
  find_at pat s i = Some k -> (i <= k /\ (k - i) + length pat <= length s)%nat.
Proof.
  revert i; induction s as [|c s IH]; intros i H; simpl in H.
  - destruct (starts_with pat []) eqn:E; [|discriminate].
    inversion H; subst. apply starts_with_length in E. simpl in *. lia.
  - destruct (starts_with pat (c :: s)) eqn:E.
    + inversion H; subst. apply starts_with_length in E. simpl in *. lia.
    + apply IH in H. simpl. lia.
Qed.

Lemma std_find_bound (data pat : bytes) (pos k : nat) :
  std_find data pat pos = Some k -> (pos <= k /\ k + length pat <= length data)%nat.
Proof.
  unfold std_find. destruct (length data <? pos)%nat eqn:E; [discriminate|].
  apply Nat.ltb_ge in E. intros H. apply find_at_bound in H.
  rewrite length_skipn in H. lia.
Qed.

(** A value together with the equation that says what it is the value of. *)
Definition inspect {A : Type} (x : A) : {y : A | x = y} := exist _ x eq_refl.

(** The loop of [stringSplit], entered with a delimiter [d :: ds] that is
    not empty.  [str2] is the part of the text still to be scanned. *)
Equations? split_loop (d : char) (ds : bytes) (str2 : bytes) (result : list String)
  : list String by wf (length str2) lt :=
  split_loop d ds str2 result with inspect (std_find str2 (d :: ds) 0) := {
    | exist _ None _ =>
        if (0 <? length str2)%nat then result ++ [String_of_string str2] else result
    | exist _ (Some index) Hfind =>
        split_loop d ds
          (std_erase str2 0 (index + length (d :: ds)))
          (if negb (index =? 0)%nat
           then result ++ [String_of_string (std_substr str2 0 index)]
           else result)
  }.
Proof.
  apply std_find_bound in Hfind. unfold std_erase. simpl in *.
  rewrite length_skipn. lia.
Qed.

(** [stringSplit].  A view has [_end >= _begin], so [size() == 0] says that
    the range is empty. *)
Definition stringSplit (str : bytes) (delimiter : StringView) : outcome (list String) :=
  match StringView_bytes delimiter with
  | [] => error "stringSplit: Delimiter cannot be the empty string."
  | d :: ds => Return (split_loop d ds str [])
  end.

(** [String::split]. *)
Definition String_split (s : String) (delimiters : StringView) : outcome (list String) :=
  stringSplit (_data s) delimiters.

(** The loop of [String::join] over the elements from [v[i]] on. *)
Fixpoint join_loop (v : list String) (delimiter : StringView) (result : String) : String :=
  match v with
  | [] => result
  | x :: rest =>
      let result := String_append result (StringView_of_String x) in
      let result := match rest with
                    | [] => result
                    | _ :: _ => String_append result delimiter
                    end in
      join_loop rest delimiter result
  end.

(** [String::join]. *)
Definition String_join (v : list String) (delimiter : StringView) : String :=
  join_loop v delimiter (mkString [] VersionTracker_initial).

(** The parts of a sequence with [delim] between each two of them: what
    [join] is to produce. *)
Fixpoint join_data (delim : bytes) (parts : list bytes) : bytes :=
  match parts with
  | [] => []
  | x :: rest =>
      x ++ match rest with
           | [] => []
           | _ :: _ => delim ++ join_data delim rest
           end
  end.

(** The [for] loop of [String::replaceAll], with a target [t :: ts] that is
    not empty: [from] is the position the next [find] starts at (0 on
    entry, [i + replaceLength] after a replacement at [i]). *)
Equations? replaceAll_loop (t : char) (ts w : bytes) (s : String) (from : nat)
  : String by wf (length (_data s) - from)%nat lt :=
  replaceAll_loop t ts w s from with inspect (std_find (_data s) (t :: ts) from) := {
    | exist _ None _ => s
    | exist _ (Some i) Hfind =>
        replaceAll_loop t ts w
          (updateVersion
             (mkString (std_replace (_data s) i (length (t :: ts)) w) (_version s)))
          (i + length w)
  }.
Proof.
  apply std_find_bound in Hfind. unfold std_replace. simpl in *.
  rewrite !length_app, length_skipn, length_firstn. lia.
Qed.

(** [String::replaceAll]. *)
Definition String_replaceAll (s : String) (text with_ : StringView) : outcome String :=
  match StringView_bytes text with
  | [] => error "String::replaceAll: Cannot replace the empty string."
  | t :: ts => Return (replaceAll_loop t ts (StringView_bytes with_) s 0)
  end.

(* ===================================================================== *)
(** ** Relational operators                                               *)
(* ===================================================================== *)

(** The comparison [a < b] of two [char] values. *)
Definition char_lt (char_signed : bool) (a b : char) : bool :=
  int_of_char char_signed a <? int_of_char char_signed b.

(** [std::lexicographical_compare] over two ranges of [char]. *)
Fixpoint lexicographical_compare (char_signed : bool) (a b : bytes) : bool :=
  match a, b with
  | _, [] => false
  | [], _ :: _ => true
  | x :: a', y :: b' =>
      if char_lt char_signed x y then true
      else if char_lt char_signed y x then false
      else lexicographical_compare char_signed a' b'
  end.

Section Relational.
Variable char_signed : bool.

(** [String::operator<]. *)
Definition String_operator_lt (this : String) (lhs : StringView) : bool :=
  lexicographical_compare char_signed (_data this) (StringView_bytes lhs).

(** [String::operator>=]: [!( *this < lhs)]. *)
Definition String_operator_ge (this : String) (lhs : StringView) : bool :=
  negb (String_operator_lt this lhs).

(** [String::operator>] is [lhs < StringView( *this)], a comparison of two
    views.  [StringView] has no [operator<] of its own and is not a
    [String], so the only function this expression can call is the
    global template [operator<(const Text&, const String&)], with
    [Text = StringView] and the right operand converted to a [String]
    by [String(StringView)].  That function returns [rhs > lhs], which is
    [String::operator>] again.  The two functions are therefore defined
    together; [depth] bounds the number of nested calls, and [None] says
    that more than [depth] calls were needed. *)
Fixpoint String_operator_gt (depth : nat) (this : String) (lhs : StringView)
  {struct depth} : option bool :=
  match depth with
  | O => None
  | S depth' => operator_lt depth' lhs (String_of_view (StringView_of_String this))
  end

(** The global [operator<], the [String] on the right: [rhs > lhs]. *)
with operator_lt (depth : nat) (lhs : StringView) (rhs : String)
  {struct depth} : option bool :=
  match depth with
  | O => None
  | S depth' => String_operator_gt depth' rhs lhs
  end.

(** [String::operator<=]: [!(lhs < StringView( *this))], the same
    comparison of two views. *)
Definition String_operator_le (depth : nat) (this : String) (lhs : StringView)
  : option bool :=
  match depth with
  | O => None
  | S depth' =>
      option_map negb
        (operator_lt depth' lhs (String_of_view (StringView_of_String this)))
  end.

(** The global operators with the [String] on the right.  The left
    operand is text-like; the member function it is passed to receives
    it as a view. *)

(** [operator<=]: [rhs >= lhs]. *)
Definition operator_le (lhs : StringView) (rhs : String) : bool :=
  String_operator_ge rhs lhs.

(** [operator>=]: [rhs <= lhs]. *)
Definition operator_ge (depth : nat) (lhs : StringView) (rhs : String) : option bool :=
  match depth with
  | O => None
  | S depth' => String_operator_le depth' rhs lhs
  end.

(** [operator>]: [rhs > lhs]. *)
Definition operator_gt (depth : nat) (lhs : StringView) (rhs : String) : option bool :=
  match depth with
  | O => None
  | S depth' => String_operator_gt depth' rhs lhs
  end.
End Relational.

(* ===================================================================== *)
(** ** URL encoding                                                       *)
(* ===================================================================== *)

(** One hexadecimal digit under [std::uppercase]. *)
Definition hex_digit (d : Z) : char :=
  if d <? 10 then chr (48 + d) else chr (55 + d).

(** The digits of [v], most significant first; an [int] has at most 8. *)
Fixpoint hex_digits (n : nat) (v : Z) (acc : bytes) : bytes :=
  match n with
  | O => acc
  | S n' =>
      let acc' := hex_digit (v mod 16) :: acc in
      if v / 16 =? 0 then acc' else hex_digits n' (v / 16) acc'
  end.

(** [out << std::hex << n] for an [int]: a hexadecimal conversion shows
    the 32-bit two's-complement pattern of [n]. *)
Definition show_hex_int (n : Z) : bytes := hex_digits 8 (n mod 2 ^ 32) [].

(** [std::setw(w)] under [std::setfill('0')]: a field shorter than [w] is
    padded on the left, a longer one is written whole. *)
Definition setw_fill0 (w : nat) (field : bytes) : bytes :=
  repeat (chr 48) (w - length field) ++ field.

(** The characters that [urlEncoded] copies as they are. *)
Definition url_unreserved (c : char) : bool :=
  isalnum c || char_eqb c "-"%char || char_eqb c "_"%char || char_eqb c "."%char
  || char_eqb c "~"%char || char_eqb c "*"%char.

(** The body of the loop of [String::urlEncoded]: what one [char] adds to
    the stream. *)
Definition urlEncoded_char (char_signed : bool) (c : char) : bytes :=
  if url_unreserved c then [c]
  else if char_eqb c " "%char then ["+"%char]
  else "%"%char :: setw_fill0 2 (show_hex_int (int_of_char char_signed c)).

(** [String::urlEncoded]. *)
Definition String_urlEncoded (char_signed : bool) (s : String) : String :=
  String_of_string (flat_map (urlEncoded_char char_signed) (_data s)).

(* ===================================================================== *)
(** ** Conversions with a radix                                           *)
(* ===================================================================== *)

(** An integral target type [T]: its signedness and
    [std::numeric_limits<T>::min()] and [max()]. *)
Record IntegralType := mkIntegralType {
  is_unsigned : bool;
  type_min : Z;
  type_max : Z
}.

Definition int_t : IntegralType := mkIntegralType false (- 2 ^ 31) (2 ^ 31 - 1).
Definition unsigned_int_t : IntegralType := mkIntegralType true 0 (2 ^ 32 - 1).
Definition long_long_t : IntegralType := mkIntegralType false (- 2 ^ 63) (2 ^ 63 - 1).
Definition unsigned_long_long_t : IntegralType := mkIntegralType true 0 (2 ^ 64 - 1).

Definition LLONG_MIN : Z := - 2 ^ 63.
Definition LLONG_MAX : Z := 2 ^ 63 - 1.
Definition ULLONG_MAX : Z := 2 ^ 64 - 1.

(** The value of a character as a digit, as [strtoll] reads it. *)
Definition digit_value (c : char) : option Z :=
  if isdigit c then Some (code c - 48)
  else if islower c then Some (code c - 97 + 10)
  else if isupper c then Some (code c - 65 + 10)
  else None.

Definition is_digit_in (radix : Z) (c : char) : bool :=
  match digit_value c with
  | Some d => d <? radix
  | None => false
  end.

(** The longest run of digits of the radix at the front of [s]: its value
    on top of [acc], and whether it holds a digit at all.  Whatever follows
    the run is not looked at. *)
Fixpoint parse_digits (radix : Z) (s : bytes) (acc : Z) (any : bool) : Z * bool :=
  match s with
  | [] => (acc, any)
  | c :: rest =>
      match digit_value c with
      | Some d =>
          if d <? radix then parse_digits radix rest (acc * radix + d) true
          else (acc, any)
      | None => (acc, any)
      end
  end.

Fixpoint skip_space (s : bytes) : bytes :=
  match s with
  | c :: rest => if isspace c then skip_space rest else s
  | [] => []
  end.

(** The sign in front of the number: whether it is a minus, and the rest. *)
Definition take_sign (s : bytes) : bool * bytes :=
  match s with
  | c :: rest =>
      if char_eqb c "-"%char then (true, rest)
      else if char_eqb c "+"%char then (false, rest)
      else (false, s)
  | [] => (false, [])
  end.

(** With radix 16 a [0x] or [0X] in front of a hexadecimal digit is
    skipped. *)
Definition skip_prefix (radix : Z) (s : bytes) : bytes :=
  match s with
  | z :: x :: h :: rest =>
      if (radix =? 16) && char_eqb z "0"%char
         && (char_eqb x "x"%char || char_eqb x "X"%char) && is_digit_in 16 h
      then h :: rest else s
  | _ => s
  end.

(** The number [strtoll] and [strtoull] read at the front of [str]: its
    sign and magnitude, if there is one. *)
Definition scan_number (str : bytes) (radix : Z) : option (bool * Z) :=
  let (negative, s) := take_sign (skip_space str) in
  let (magnitude, any) := parse_digits radix (skip_prefix radix s) 0 false in
  if any then Some (negative, magnitude) else None.

(** [std::stoll(str, nullptr, radix)]: no number gives
    [std::invalid_argument], a value outside [long long] gives
    [std::out_of_range].  With [nullptr] as second argument the number of
    characters read is not reported. *)
Definition stoll (str : bytes) (radix : Z) : outcome Z :=
  match scan_number str radix with
  | None => Throw (StdException invalid_argument)
  | Some (negative, magnitude) =>
      let v := if negative then - magnitude else magnitude in
      if (LLONG_MIN <=? v) && (v <=? LLONG_MAX) then Return v
      else Throw (StdException out_of_range)
  end.

(** [std::stoull(str, nullptr, radix)]: a minus sign negates in
    [unsigned long long]. *)
Definition stoull (str : bytes) (radix : Z) : outcome Z :=
  match scan_number str radix with
  | None => Throw (StdException invalid_argument)
  | Some (negative, magnitude) =>
      if magnitude <=? ULLONG_MAX then
        Return (if negative then (- magnitude) mod 2 ^ 64 else magnitude)
      else Throw (StdException out_of_range)
  end.

Section Conversion.
(** [ErrorException] is declared in [error.h], which is not part of the
    sources: whether it derives from [std::exception], and so whether the
    handler of [radixConvert] catches it, is left open. *)
Variable ErrorException_is_std : bool.

Definition is_std_exception (e : exn) : bool :=
  match e with
  | StdException _ => true
  | ErrorException _ => ErrorException_is_std
  end.

(** [radixConvert<T, Intermediate>]. *)
Definition radixConvert (T : IntegralType) (converter : outcome Z) : outcome Z :=
  let attempt :=
    result <- converter ;;
    if (type_min T <=? result) && (result <=? type_max T) then Return result
    else error "String::to: Could not convert string to that type." in
  match attempt with
  | Return v => Return v
  | Throw e =>
      if is_std_exception e
      then error "String::to: Could not convert string to that type."
      else Throw e
  end.

(** [radixTo<T>], in its signed and its unsigned version. *)
Definition radixTo (T : IntegralType) (str : bytes) (radix : Z) : outcome Z :=
  if is_unsigned T then
    radixConvert T
      (match str with
       | [] => error "Unsigned values can't be negative."
       | c :: _ =>
           if char_eqb c "-"%char then error "Unsigned values can't be negative."
           else stoull str radix
       end)
  else radixConvert T (stoll str radix).

(** [String::to<T>(str, radix)]. *)
Definition String_to_radix (T : IntegralType) (s : String) (radix : Z) : outcome Z :=
  if (radix <? 2) || (radix >? 36) then
    error "String::to: Radix must be between 2 and 36, inclusive."
  else radixTo T (_data (String_trimmed s)) radix.

(** [String::is<T>(str, radix)]: the handler catches [ErrorException]
    and nothing else. *)
Definition String_is_radix (T : IntegralType) (s : String) (radix : Z) : outcome bool :=
  if (radix <? 2) || (radix >? 36) then
    error "String::is: Radix must be between 2 and 36, inclusive."
  else
    match String_to_radix T s radix with
    | Return _ => Return true
    | Throw (ErrorException _) => Return false
    | Throw e => Throw e
    end.
End Conversion.

(* ===================================================================== *)
(** ** Search predicates and concrete texts                               *)
(* ===================================================================== *)

(** [String::contains], [String::startsWith] and [String::endsWith]. *)
Definition String_contains (s : String) (t : StringView) : bool :=
  match std_find (_data s) (StringView_bytes t) 0 with
  | Some _ => true
  | None => false
  end.

Definition String_startsWith (s : String) (prefix : StringView) : bool :=
  if String_length s <? StringView_size prefix then false
  else starts_with (StringView_bytes prefix) (_data s).

Definition String_endsWith (s : String) (suffix : StringView) : bool :=
  let start := String_length s - StringView_size suffix in
  if start <? 0 then false
  else starts_with (StringView_bytes suffix) (skipn (Z.to_nat start) (_data s)).

(** Short names for the concrete texts of the examples. *)
Definition view (s : string) : StringView := StringView_of_string (str s).
Definition text (s : string) : String := String_of_string (str s).

(* ===================================================================== *)
(** ** Further operations of [String]                                     *)
(* ===================================================================== *)

(** [String::String(int numCopies, char ch)]. *)
Definition String_of_copies (numCopies : Z) (ch : char) : outcome String :=
  if numCopies <? 0 then error "String::String: numCopies < 0"
  else Return (mkString (repeat ch (Z.to_nat numCopies)) VersionTracker_initial).

(** [String::isEmpty]. *)
Definition String_isEmpty (s : String) : bool :=
  match _data s with
  | [] => true
  | _ :: _ => false
  end.

(** Whether [pat] stands in [data] at position [j]. *)
Definition occurs_at (data pat : bytes) (j : nat) : bool :=
  (j + length pat <=? length data)%nat && starts_with pat (skipn j data).

(** The loop of [data.rfind]: [pos] runs down to 0. *)
Fixpoint rfind_from (data pat : bytes) (pos : nat) : option nat :=
  if starts_with pat (skipn pos data) then Some pos
  else match pos with
       | O => None
       | S pos' => rfind_from data pat pos'
       end.

(** [data.rfind(pat, pos, n)], [None] standing for [npos]. *)
Definition std_rfind (data pat : bytes) (pos : nat) : option nat :=
  if (length pat <=? length data)%nat
  then rfind_from data pat (Nat.min (length data - length pat) pos)
  else None.

(** [String::findFromBack(StringView, int)]. *)
Definition String_findFromBack_at (s : String) (t : StringView) (lastIndex : Z)
  : outcome Z :=
  if lastIndex <? 0 then
    error "String::findFromBack: Start index must be greater than or equal to zero."
  else
    match std_rfind (_data s) (StringView_bytes t) (Z.to_nat lastIndex) with
    | None => Return (-1)
    | Some result => Return (Z.of_nat result)
    end.

(** [String::findFromBack(StringView)]. *)
Definition String_findFromBack (s : String) (t : StringView) : outcome Z :=
  String_findFromBack_at s t (String_length s).

(** [String::substr(int, int)]. *)
Definition String_substr (s : String) (start length : Z) : outcome String :=
  checkIndex start "substr" 0 (String_length s) ;;;
  if length <? 0 then error "String::substr: Negative length."
  else Return (String_of_string
                 (std_substr (_data s) (Z.to_nat start) (Z.to_nat length))).

(** [String::substr(int)]. *)
Definition String_substr_from (s : String) (start : Z) : outcome String :=
  String_substr s start (String_length s).

(** [std::equal(first, last, other)]: the elements of the first range
    against those that [other] points at. *)
Fixpoint std_equal (a b : bytes) : bool :=
  match a, b with
  | [], _ => true
  | _ :: _, [] => false
  | x :: a', y :: b' => char_eqb x y && std_equal a' b'
  end.

(** [String::operator==] and [String::operator!=]. *)
Definition String_operator_eq (this : String) (lhs : StringView) : bool :=
  (String_length this =? StringView_size lhs)
  && std_equal (_data this) (StringView_bytes lhs).

Definition String_operator_ne (this : String) (lhs : StringView) : bool :=
  negb (String_operator_eq this lhs).

(** The global [operator==] and [operator!=], the [String] on the right. *)
Definition operator_eq (lhs : StringView) (rhs : String) : bool :=
  String_operator_eq rhs lhs.
Definition operator_ne (lhs : StringView) (rhs : String) : bool :=
  String_operator_ne rhs lhs.

(* ===================================================================== *)
(** ** URL decoding                                                       *)
(* ===================================================================== *)

Definition isxdigit (c : char) : bool :=
  isdigit c || in_range 65 70 c || in_range 97 102 c.

(** The value of a hexadecimal digit, as [urlDecoded] computes it. *)
Definition hex_value (ch : char) : Z :=
  if isdigit ch then code ch - 48 else code (toupper ch) - 65 + 10.

(** The loop of [String::urlDecoded] over the bytes from the cursor on.
    The test [i + 2 >= n] fails the call when fewer than two bytes follow
    the percent sign. *)
Fixpoint urlDecoded_loop (char_signed : bool) (s : bytes) : outcome bytes :=
  match s with
  | [] => Return []
  | c :: rest =>
      if url_unreserved c then
        unescaped <- urlDecoded_loop char_signed rest ;; Return (c :: unescaped)
      else if char_eqb c "+"%char then
        unescaped <- urlDecoded_loop char_signed rest ;; Return (" "%char :: unescaped)
      else if char_eqb c "%"%char then
        match rest with
        | ch1 :: ch2 :: rest' =>
            if isxdigit ch1 && isxdigit ch2 then
              unescaped <- urlDecoded_loop char_signed rest' ;;
              Return (chr (hex_value ch1 * 16 + hex_value ch2) :: unescaped)
            else error "urlDecode: Invalid percent-encoding"
        | _ => error "urlDecode: Invalid percent-encoding"
        end
      else
        error ("urlDecode: Unexpected character in string: "
               ++ show_int (int_of_char char_signed c)
               ++ " (" ++ String.String c "" ++ ")")
  end.

(** [String::urlDecoded]. *)
Definition String_urlDecoded (char_signed : bool) (s : String) : outcome String :=
  unescaped <- urlDecoded_loop char_signed (_data s) ;;
  Return (String_of_string unescaped).

(* ===================================================================== *)
(** ** Conversions without a radix: [bool]                                *)
(* ===================================================================== *)

(** [fromImpl(bool)]. *)
Definition from_bool (value : bool) : String :=
  if value then text "true" else text "false".

Definition bytes_eqb (a b : bytes) : bool :=
  String.eqb (string_of_list_ascii a) (string_of_list_ascii b).

(** [toImpl(data, Box<bool>)] and [String::to<bool>]. *)
Definition String_to_bool (s : String) : outcome bool :=
  if bytes_eqb (_data s) (str "true") then Return true
  else if bytes_eqb (_data s) (str "false") then Return false
  else error "String::to: Boolean values must be either 'true' or 'false'".

(** [String::is<T>(str)]: the function-try-block catches
    [ErrorException]. *)
Definition String_is {T : Type} (to : String -> outcome T) (s : String) : outcome bool :=
  match to s with
  | Return _ => Return true
  | Throw (ErrorException _) => Return false
  | Throw e => Throw e
  end.

(* ===================================================================== *)
(** ** Notions used in the statements                                     *)
(* ===================================================================== *)

(** What is left of a text when the white space at its end is dropped. *)
Definition strip_end (s : bytes) : bytes := rev (skip_space (rev s)).

(** The bytes that [urlDecoded] accepts outside a percent escape. *)
Definition url_plain (c : char) : bool :=
  url_unreserved c || char_eqb c "+"%char || char_eqb c "%"%char.

(** The number that a run of digits denotes in a radix. *)
Definition positional (radix : Z) (l : bytes) : Z :=
  fold_left (fun acc c => acc * radix + match digit_value c with
                                        | Some d => d
                                        | None => 0
                                        end) l 0.

(** The limits of [T] lie within those of the type the conversion goes
    through: [long long] for a signed [T], [unsigned long long] else. *)
Definition IntegralType_fits (T : IntegralType) : Prop :=
  if is_unsigned T then 0 <= type_min T /\ type_max T <= ULLONG_MAX
  else LLONG_MIN <= type_min T /\ type_max T <= LLONG_MAX.

(* ===================================================================== *)
(** * Properties                                                          *)
(* ===================================================================== *)

Lemma StringView_bytes_of_string (t : bytes) :
  StringView_bytes (StringView_of_string t) = t.
Proof.
  unfold StringView_bytes, StringView_size, StringView_of_string; simpl.
  rewrite Z.sub_0_r, Nat2Z.id, firstn_app, Nat.sub_diag, firstn_all; simpl.
  apply app_nil_r.
Qed.

Lemma StringView_size_empty (v : StringView) :
  StringView_size v = 0 -> StringView_bytes v = [].
Proof. intros H. unfold StringView_bytes. rewrite H. reflexivity. Qed.

(** Each constructor yields a well-formed view. *)
Lemma StringView_of_char_wf (ch : char) : StringView_wf (StringView_of_char ch).
Proof. unfold StringView_wf; simpl; lia. Qed.

Lemma StringView_of_string_wf (t : bytes) : StringView_wf (StringView_of_string t).
Proof. unfold StringView_wf; simpl. rewrite length_app; simpl. lia. Qed.

Lemma strlen_terminated (buf : bytes) :
  In NUL buf -> (strlen buf < length buf)%nat.
Proof.
  induction buf as [|c rest IH]; simpl; [tauto|].
  intros [->|H].
  - unfold char_eqb. rewrite Ascii.eqb_refl. lia.
  - destruct (char_eqb c NUL); [lia|]. apply IH in H. lia.
Qed.

Lemma StringView_of_cstr_wf (buf : bytes) :
  In NUL buf ->
  exists v, StringView_of_cstr (Some buf) = Return v /\ StringView_wf v.
Proof.
  intros H. eexists; split; [reflexivity|].
  apply strlen_terminated in H. unfold StringView_wf; simpl. lia.
Qed.

(* --------------------------------------------------------------------- *)
(** ** Versions and in-place writes                                       *)
(* --------------------------------------------------------------------- *)

(** C1, as the code has it: [toLowerCase] and [toUpperCase] rewrite the
    bytes in place, keep the length and leave the version counter as it
    was, so that a cursor is valid after the call exactly if it was valid
    before it. *)
Theorem case_conversion_keeps_version (s : String) (c : Cursor) :
  _version (String_toLowerCase s) = _version s /\
  _version (String_toUpperCase s) = _version s /\
  String_length (String_toLowerCase s) = String_length s /\
  String_length (String_toUpperCase s) = String_length s /\
  cursor_valid (String_toLowerCase s) c = cursor_valid s c /\
  cursor_valid (String_toUpperCase s) c = cursor_valid s c.
Proof.
  unfold String_length, cursor_valid; simpl.
  rewrite !length_map. repeat split; reflexivity.
Qed.

(** C1 at the text "Ab": neither conversion increments the version, and
    the cursor issued before the call is still valid after it. *)
Lemma case_conversion_no_increment :
  let s := text "Ab" in
  _data (String_toLowerCase s) = str "ab" /\
  _version (String_toLowerCase s) <> VersionTracker_update (_version s) /\
  _version (String_toUpperCase s) <> VersionTracker_update (_version s) /\
  cursor_valid (String_toLowerCase s) (String_begin s) = true /\
  cursor_valid (String_toUpperCase s) (String_begin s) = true.
Proof. vm_compute. repeat split; discriminate. Qed.

Lemma checkIndex_in_range (index : Z) (why : string) (low high : Z) :
  low <= index <= high -> checkIndex index why low high = Return tt.
Proof.
  intros H. unfold checkIndex.
  destruct (index <? low) eqn:E1; [apply Z.ltb_lt in E1; lia|].
  destruct (index >? high) eqn:E2; [apply Z.gtb_lt in E2; lia|].
  reflexivity.
Qed.

Lemma std_store_nth (data : bytes) (i : nat) (c d : char) :
  (i < length data)%nat -> nth i (std_store data i c) d = c.
Proof.
  revert i; induction data as [|x data IH]; intros [|i] H; simpl in *;
    try lia; [reflexivity|].
  apply IH. lia.
Qed.

Lemma std_store_length (data : bytes) (i : nat) (c : char) :
  length (std_store data i c) = length data.
Proof.
  revert i; induction data as [|x data IH]; intros [|i]; simpl; auto.
Qed.

(** C5, as the code has it: for a valid index the write [t[i] = c]
    succeeds, a following read of [t[i]] yields [c], and the version
    counter is the one from before the write. *)
Theorem indexed_write_then_read (t : String) (i : Z) (c : char)
  (Hi : 0 <= i < String_length t) :
  exists t',
    String_assign_at t i c = Return t' /\
    String_read_at t' i = Return c /\
    _version t' = _version t.
Proof.
  unfold String_assign_at, String_read_at, String_at_ref, String_length in *.
  rewrite checkIndex_in_range by lia. simpl.
  eexists; split; [reflexivity|]. split; [|reflexivity].
  unfold String_length; simpl. rewrite std_store_length.
  rewrite checkIndex_in_range by lia. simpl.
  unfold ref_load; simpl. rewrite std_store_nth by lia. reflexivity.
Qed.

(** The write and the read at index 1 of "abc". *)
Lemma indexed_write_then_read_witness :
  exists t',
    String_assign_at (text "abc") 1 "x"%char = Return t' /\
    String_read_at t' 1 = Return "x"%char /\
    _version t' = _version (text "abc").
Proof.
  apply (@indexed_write_then_read (text "abc") 1 "x"%char).
  vm_compute. split; [discriminate | reflexivity].
Defined.

(** C5 at the text "abc", index 1: the write is read back, but the version
    counter has not advanced across it. *)
Lemma indexed_write_no_advance :
  exists t',
    String_assign_at (text "abc") 1 "x"%char = Return t' /\
    String_read_at t' 1 = Return "x"%char /\
    ~ (_version (text "abc") < _version t')%nat.
Proof.
  eexists. split; [vm_compute; reflexivity|].
  split; [vm_compute; reflexivity|]. simpl. lia.
Qed.

(* --------------------------------------------------------------------- *)
(** ** Bounds of [StringView::operator[]] and of [String::find]           *)
(* --------------------------------------------------------------------- *)

(** C9: on a view, [v[i]] raises exactly when [i < 0] or [i > v.size()];
    the index [v.size()] is accepted, and what is returned for it is the
    byte of the storage at [_end], one position past the viewed range. *)
Theorem StringView_at_range (v : StringView) (i : Z) (Hwf : StringView_wf v) :
  (StringView_at v i = error "String index out of range."
   <-> i < 0 \/ i > StringView_size v) /\
  (returns (StringView_at v i) = false <-> i < 0 \/ i > StringView_size v) /\
  exists c,
    nth_error (storage v) (Z.to_nat (_end v)) = Some c /\
    StringView_at v (StringView_size v) = Return (Some c).
Proof.
  destruct Hwf as [[Hb He] Hlen].
  assert (Hcases : (i < 0 \/ i > StringView_size v) \/
                   ((i <? 0) || (i >? StringView_size v) = false)).
  { destruct (i <? 0) eqn:E1; [apply Z.ltb_lt in E1; auto|].
    destruct (i >? StringView_size v) eqn:E2; [apply Z.gtb_lt in E2; left; lia|].
    auto. }
  assert (Hraise : i < 0 \/ i > StringView_size v ->
                   (i <? 0) || (i >? StringView_size v) = true).
  { intros [H|H].
    - apply Z.ltb_lt in H. rewrite H. reflexivity.
    - apply Z.gt_lt, Z.gtb_lt in H. rewrite H. apply orb_true_r. }
  split; [|split].
  - unfold StringView_at. split.
    + intros H. destruct Hcases as [Hc|Hc]; [exact Hc|].
      rewrite Hc in H. discriminate.
    + intros H. rewrite (Hraise H). reflexivity.
  - unfold StringView_at. split.
    + intros H. destruct Hcases as [Hc|Hc]; [exact Hc|].
      rewrite Hc in H. discriminate.
    + intros H. rewrite (Hraise H). reflexivity.
  - destruct (nth_error (storage v) (Z.to_nat (_end v))) as [c|] eqn:E.
    + exists c. split; [reflexivity|].
      unfold StringView_at, StringView_size.
      destruct (_end v - _begin v <? 0) eqn:E1; [apply Z.ltb_lt in E1; lia|].
      destruct (_end v - _begin v >? _end v - _begin v) eqn:E2;
        [apply Z.gtb_lt in E2; lia|].
      simpl. unfold deref.
      replace (_begin v + (_end v - _begin v)) with (_end v) by lia.
      destruct (_end v <? 0) eqn:E3; [apply Z.ltb_lt in E3; lia|].
      rewrite E. reflexivity.
    + apply nth_error_None in E. lia.
Qed.

(** The view of "abc" at index 4, and at index 3, its size. *)
Lemma StringView_at_range_witness :
  (StringView_at (view "abc") 4 = error "String index out of range."
   <-> 4 < 0 \/ 4 > StringView_size (view "abc")) /\
  (returns (StringView_at (view "abc") 4) = false
   <-> 4 < 0 \/ 4 > StringView_size (view "abc")) /\
  exists c,
    nth_error (storage (view "abc")) (Z.to_nat (_end (view "abc"))) = Some c /\
    StringView_at (view "abc") (StringView_size (view "abc")) = Return (Some c).
Proof.
  apply (@StringView_at_range (view "abc") 4).
  unfold StringView_wf. vm_compute. repeat split; discriminate.
Defined.

Lemma std_find_past_end (data pat : bytes) (pos : nat) :
  (length data < pos)%nat -> std_find data pat pos = None.
Proof.
  intros H. unfold std_find. apply Nat.ltb_lt in H. rewrite H. reflexivity.
Qed.

(** C10: with a start index beyond the length, [find] returns -1 and does
    not raise; [find] raises exactly when the start index is negative. *)
Theorem String_find_start_index (s : String) (t : StringView) (i : Z) :
  (i > String_length s -> String_find s t i = Return (-1)) /\
  (returns (String_find s t i) = false <-> i < 0) /\
  (i < 0 -> String_find s t i =
            error "String::find: Start index must be greater than or equal to zero.").
Proof.
  unfold String_find, String_length.
  destruct (i <? 0) eqn:E.
  - apply Z.ltb_lt in E. split; [intros; lia|]. split; [|reflexivity].
    simpl. split; auto.
  - apply Z.ltb_ge in E. split; [|split].
    + intros H. rewrite std_find_past_end by lia. reflexivity.
    + destruct (std_find _ _ _); simpl; split; intros; try discriminate; lia.
    + intros; lia.
Qed.

(** A search in "abc" from index 4, and one from index -1. *)
Lemma String_find_start_index_witness :
  String_find (text "abc") (view "") 4 = Return (-1) /\
  String_find (text "abc") (view "b") (-1) =
    error "String::find: Start index must be greater than or equal to zero.".
Proof.
  split.
  - apply (String_find_start_index (text "abc") (view "") 4). vm_compute. reflexivity.
  - apply (String_find_start_index (text "abc") (view "b") (-1)). lia.
Defined.

(* --------------------------------------------------------------------- *)
(** ** Replace-all                                                        *)
(* --------------------------------------------------------------------- *)

(** With a target that is not empty, [replaceAll] returns. *)
Lemma String_replaceAll_returns (s : String) (target w : StringView) :
  StringView_bytes target <> [] -> returns (String_replaceAll s target w) = true.
Proof.
  intros H. unfold String_replaceAll.
  destruct (StringView_bytes target); [congruence | reflexivity].
Qed.

(** C8: [replaceAll] raises when the target is empty; on "banana" with
    target "a" and replacement "aa" it returns, and the text is then
    "baanaanaa". *)
Theorem replaceAll_empty_target_and_banana :
  (forall (s : String) (target w : StringView),
      StringView_size target = 0 ->
      String_replaceAll s target w =
        error "String::replaceAll: Cannot replace the empty string.") /\
  exists s',
    String_replaceAll (text "banana") (view "a") (view "aa") = Return s' /\
    _data s' = str "baanaanaa".
Proof.
  split.
  - intros s target w H. unfold String_replaceAll.
    rewrite (StringView_size_empty _ H). reflexivity.
  - eexists. split; vm_compute; reflexivity.
Qed.

(** An empty target on "banana". *)
Lemma replaceAll_empty_target_and_banana_witness :
  String_replaceAll (text "banana") (view "") (view "aa") =
    error "String::replaceAll: Cannot replace the empty string.".
Proof.
  apply (proj1 replaceAll_empty_target_and_banana). reflexivity.
Defined.

(* --------------------------------------------------------------------- *)
(** ** Split and join                                                     *)
(* --------------------------------------------------------------------- *)

Lemma split_loop_step (d : char) (ds str2 : bytes) (result : list String) :
  split_loop d ds str2 result =
  match std_find str2 (d :: ds) 0 with
  | None => if (0 <? length str2)%nat then result ++ [String_of_string str2] else result
  | Some index =>
      split_loop d ds (std_erase str2 0 (index + length (d :: ds)))
        (if negb (index =? 0)%nat
         then result ++ [String_of_string (std_substr str2 0 index)]
         else result)
  end.
Proof.
  rewrite split_loop_equation_1.
  destruct (inspect (std_find str2 (d :: ds) 0)) as [[index|] H];
    simpl; rewrite H; reflexivity.
Qed.

Lemma starts_with_app (pat q : bytes) : starts_with pat (pat ++ q) = true.
Proof.
  induction pat as [|p pat IH]; simpl; [reflexivity|].
  unfold char_eqb. rewrite Ascii.eqb_refl. exact IH.
Qed.

Lemma starts_with_split (pat s : bytes) :
  starts_with pat s = true -> s = pat ++ skipn (length pat) s.
Proof.
  revert s; induction pat as [|p pat IH]; intros [|c s] H; simpl in *;
    try reflexivity; try discriminate.
  apply andb_prop in H as [Hc H]. apply Ascii.eqb_eq in Hc. subst c.
  f_equal. apply IH, H.
Qed.

Lemma find_at_match (pat s : bytes) (i k : nat) :
  find_at pat s i = Some k ->
  exists j, k = (i + j)%nat /\ starts_with pat (skipn j s) = true.
Proof.
  revert i; induction s as [|c s IH]; intros i H; simpl in H.
  - destruct (starts_with pat []) eqn:E; [|discriminate].
    inversion H; subst. exists O. split; [lia | exact E].
  - destruct (starts_with pat (c :: s)) eqn:E.
    + inversion H; subst. exists O. split; [lia | exact E].
    + apply IH in H as [j [-> Hj]]. exists (S j). split; [lia | exact Hj].
Qed.

Lemma find_at_occurs (pat p q : bytes) (i : nat) :
  find_at pat (p ++ pat ++ q) i <> None.
Proof.
  revert i; induction p as [|c p IH]; intros i.
  - simpl. destruct (pat ++ q) eqn:E; simpl;
      rewrite <- ?E, starts_with_app; discriminate.
  - simpl. destruct (starts_with pat (c :: p ++ pat ++ q)); [discriminate|].
    apply IH.
Qed.

(** A match found from position 0 cuts the text in three. *)
Lemma std_find_split (s pat : bytes) (k : nat) :
  std_find s pat 0 = Some k ->
  s = firstn k s ++ pat ++ skipn (k + length pat) s.
Proof.
  unfold std_find. simpl. intros H.
  apply find_at_match in H as [j [-> Hj]]. simpl.
  apply starts_with_split in Hj. rewrite skipn_skipn in Hj.
  rewrite (Nat.add_comm j). rewrite <- Hj. symmetry. apply firstn_skipn.
Qed.

Lemma std_find_occurs (pat p q : bytes) : std_find (p ++ pat ++ q) pat 0 <> None.
Proof. unfold std_find. simpl. apply find_at_occurs. Qed.

Lemma join_loop_data (v : list String) (delimiter : StringView) (result : String) :
  _data (join_loop v delimiter result) =
  _data result ++ join_data (StringView_bytes delimiter) (map _data v).
Proof.
  revert result; induction v as [|x rest IH]; intros result; simpl.
  - symmetry. apply app_nil_r.
  - rewrite IH. destruct rest as [|y rest]; simpl.
    + unfold StringView_of_String. rewrite StringView_bytes_of_string.
      rewrite !app_nil_r. reflexivity.
    + unfold StringView_of_String. rewrite !StringView_bytes_of_string.
      rewrite <- !app_assoc. reflexivity.
Qed.

Lemma split_loop_result (d : char) (ds : bytes) (n : nat) :
  forall (str2 : bytes) (result : list String),
    (length str2 <= n)%nat ->
    split_loop d ds str2 result = result ++ split_loop d ds str2 [].
Proof.
  induction n as [|n IH]; intros str2 result Hn.
  - rewrite (split_loop_step d ds str2 result), (split_loop_step d ds str2 []).
    destruct (std_find str2 (d :: ds) 0) as [k|] eqn:E.
    + apply std_find_bound in E. simpl in E. lia.
    + destruct (0 <? length str2)%nat; [reflexivity | symmetry; apply app_nil_r].
  - rewrite (split_loop_step d ds str2 result), (split_loop_step d ds str2 []).
    destruct (std_find str2 (d :: ds) 0) as [k|] eqn:E.
    + assert (Hlen : (length (std_erase str2 0 (k + length (d :: ds))) <= n)%nat).
      { apply std_find_bound in E. unfold std_erase. simpl in *.
        rewrite length_skipn. lia. }
      rewrite (IH _ (if negb (k =? 0)%nat then _ else _) Hlen).
      rewrite (IH _ (if negb (k =? 0)%nat then [] ++ _ else _) Hlen).
      destruct (negb (k =? 0)%nat); simpl; [|reflexivity].
      rewrite <- app_assoc. reflexivity.
    + destruct (0 <? length str2)%nat; [reflexivity | symmetry; apply app_nil_r].
Qed.

Lemma String_of_string_data (t : bytes) : _data (String_of_string t) = t.
Proof. unfold String_of_string, String_of_view; simpl. apply StringView_bytes_of_string. Qed.

Section SplitJoin.
Variables (d : char) (ds : bytes).
Let delim : bytes := d :: ds.

(** On a text that is not empty and has no delimiter in front, none at
    the end and no two in a row, the loop of [stringSplit] yields at
    least one token, and the tokens with the delimiter between them are
    the text. *)
Lemma split_loop_join_data (n : nat) :
  forall s : bytes,
    (length s <= n)%nat ->
    s <> [] ->
    (forall q, s <> delim ++ q) ->
    (forall p, s <> p ++ delim) ->
    (forall p q, s <> p ++ delim ++ delim ++ q) ->
    map _data (split_loop d ds s []) <> [] /\
    join_data delim (map _data (split_loop d ds s [])) = s.
Proof.
  induction n as [|n IH]; intros s Hn Hne Hlead Htrail Hadj.
  - destruct s; [congruence | simpl in Hn; lia].
  - rewrite split_loop_step.
    destruct (std_find s (d :: ds) 0) as [k|] eqn:E.
    + pose proof (std_find_split _ _ E) as Hcut.
      pose proof (std_find_bound _ _ _ E) as [_ Hk].
      fold delim in Hcut, Hk |- *.
      set (tok := firstn k s) in *.
      set (rest := skipn (k + length delim) s) in *.
      assert (Hk0 : (k =? 0)%nat = false).
      { apply Nat.eqb_neq. intros ->. apply (Hlead rest). exact Hcut. }
      rewrite Hk0. simpl negb. cbv iota.
      assert (Herase : std_erase s 0 (k + length delim) = rest) by reflexivity.
      assert (Hsub : std_substr s 0 k = tok) by reflexivity.
      rewrite Herase, Hsub.
      rewrite (@split_loop_result d ds (length rest) rest _ (le_n _)).
      rewrite !map_app. simpl map. rewrite StringView_bytes_of_string. simpl app.
      assert (Hrest : (length rest <= n)%nat).
      { subst rest. rewrite length_skipn. subst delim. simpl in *. lia. }
      destruct (IH rest Hrest) as [Hne' Hjoin].
      * intros Hr. apply (Htrail tok). rewrite Hcut at 1. rewrite Hr, app_nil_r.
        reflexivity.
      * intros q Hq. apply (Hadj tok q). rewrite Hcut at 1. rewrite Hq. reflexivity.
      * intros p Hp. apply (Htrail (tok ++ delim ++ p)). rewrite Hcut at 1.
        rewrite Hp, <- !app_assoc. reflexivity.
      * intros p q Hpq. apply (Hadj (tok ++ delim ++ p) q). rewrite Hcut at 1.
        rewrite Hpq, <- !app_assoc. reflexivity.
      * split; [discriminate|]. simpl.
        destruct (map _data (split_loop d ds rest [])) as [|x xs] eqn:Et;
          [congruence|].
        rewrite Hjoin. symmetry. exact Hcut.
    + destruct s as [|c s]; [congruence|]. simpl. rewrite StringView_bytes_of_string.
      split; [discriminate | apply app_nil_r].
Qed.
End SplitJoin.

Lemma StringView_bytes_length (v : StringView) :
  StringView_wf v -> Z.of_nat (length (StringView_bytes v)) = StringView_size v.
Proof.
  intros [[Hb He] Hlen]. unfold StringView_bytes, StringView_size.
  rewrite length_firstn, length_skipn. lia.
Qed.

(** C6: with a delimiter that is not empty, a text that does not start
    with it, does not end with it and does not hold it twice in a row is
    split into parts that [join] puts together again; ",a,,b," is split on
    "," into "a" and "b"; and an empty delimiter makes [split] raise. *)
Theorem split_then_join (s : String) (d : StringView) (Hwf : StringView_wf d) :
  (StringView_size d <> 0 ->
   String_startsWith s d = false ->
   String_endsWith s d = false ->
   String_contains s (StringView_of_string (StringView_bytes d ++ StringView_bytes d))
     = false ->
   exists parts,
     String_split s d = Return parts /\ _data (String_join parts d) = _data s) /\
  String_split (text ",a,,b,") (view ",") = Return [text "a"; text "b"] /\
  (StringView_size d = 0 ->
   String_split s d = error "stringSplit: Delimiter cannot be the empty string.").
Proof.
  pose proof (StringView_bytes_length Hwf) as Hsize.
  split; [|split].
  - intros Hd Hlead Htrail Hadj.
    unfold String_split, stringSplit.
    destruct (StringView_bytes d) as [|c cs] eqn:Ed; [simpl in Hsize; lia|].
    eexists. split; [reflexivity|].
    unfold String_join. rewrite join_loop_data, Ed. simpl app.
    destruct (_data s) as [|x xs] eqn:Es.
    { rewrite split_loop_step. reflexivity. }
    rewrite <- Es.
    apply (@split_loop_join_data c cs (length (_data s))); try lia.
    + rewrite Es. discriminate.
    + intros q Hq. unfold String_startsWith, String_length in Hlead.
      rewrite Ed, Hq, starts_with_app in Hlead.
      destruct (_ <? _) eqn:E in Hlead; [|discriminate].
      apply Z.ltb_lt in E. rewrite <- Hsize, length_app in E. lia.
    + intros p Hp. unfold String_endsWith, String_length in Htrail.
      rewrite Ed, Hp, length_app, <- Hsize in Htrail.
      replace (Z.of_nat (length p + length (c :: cs)) - Z.of_nat (length (c :: cs)))
        with (Z.of_nat (length p)) in Htrail by lia.
      rewrite Nat2Z.id, skipn_app, skipn_all, Nat.sub_diag in Htrail.
      simpl skipn in Htrail. simpl app in Htrail.
      rewrite <- (app_nil_r (c :: cs)) in Htrail at 2.
      rewrite starts_with_app in Htrail.
      destruct (_ <? _) eqn:E in Htrail; [|discriminate].
      apply Z.ltb_lt in E. lia.
    + intros p q Hpq. unfold String_contains in Hadj.
      rewrite StringView_bytes_of_string, Hpq in Hadj.
      pose proof (@std_find_occurs ((c :: cs) ++ c :: cs) p q) as Hocc.
      rewrite <- app_assoc in Hocc.
      destruct (std_find _ _ 0); [discriminate | congruence].
  - vm_compute. reflexivity.
  - intros H. unfold String_split, stringSplit.
    rewrite (StringView_size_empty _ H). reflexivity.
Qed.

(** "a,b,c" split on "," and joined again, and split on the empty text. *)
Lemma split_then_join_witness :
  (exists parts,
     String_split (text "a,b,c") (view ",") = Return parts /\
     _data (String_join parts (view ",")) = _data (text "a,b,c")) /\
  String_split (text "a,b,c") (view "") =
    error "stringSplit: Delimiter cannot be the empty string.".
Proof.
  split.
  - apply (@split_then_join (text "a,b,c") (view ",") (StringView_of_string_wf _));
      vm_compute; [discriminate | reflexivity ..].
  - apply (@split_then_join (text "a,b,c") (view "") (StringView_of_string_wf _)).
    reflexivity.
Defined.

(* --------------------------------------------------------------------- *)
(** ** Conversions with a radix                                           *)
(* --------------------------------------------------------------------- *)

(** Whatever [radixConvert] throws is an [ErrorException]. *)
Lemma radixConvert_throws (b : bool) (T : IntegralType) (converter : outcome Z) (e : exn) :
  radixConvert b T converter = Throw e -> exists msg, e = ErrorException msg.
Proof.
  unfold radixConvert.
  destruct (bind converter _) as [v|e'] eqn:E; [discriminate|].
  destruct (is_std_exception b e') eqn:Estd.
  - intros H. inversion H. eauto.
  - intros H. inversion H; subst. destruct e as [msg|x]; [eauto | discriminate].
Qed.

Lemma String_to_radix_throws (b : bool) (T : IntegralType) (s : String) (r : Z) (e : exn) :
  String_to_radix b T s r = Throw e -> exists msg, e = ErrorException msg.
Proof.
  unfold String_to_radix, radixTo.
  destruct ((r <? 2) || (r >? 36)).
  - intros H. inversion H. eauto.
  - destruct (is_unsigned T); apply radixConvert_throws.
Qed.

Lemma radix_check (r : Z) :
  ((r <? 2) || (r >? 36) = true <-> r < 2 \/ r > 36) /\
  ((r <? 2) || (r >? 36) = false <-> 2 <= r <= 36).
Proof.
  destruct (r <? 2) eqn:E1; [apply Z.ltb_lt in E1 | apply Z.ltb_ge in E1];
    (destruct (r >? 36) eqn:E2;
     [apply Z.gtb_lt in E2 | rewrite Z.gtb_ltb in E2; apply Z.ltb_ge in E2]);
    simpl; repeat split; intros; try discriminate; try lia; auto.
Qed.

(** C7: with a radix outside [2,36], [is<T>(s, r)] raises; with a radix
    inside it, [is<T>(s, r)] returns: [true] when [to<T>(s, r)] returns a
    value, [false] when [to<T>(s, r)] raises. *)
Theorem String_is_radix_probe (b : bool) (T : IntegralType) (s : String) (r : Z) :
  (r < 2 \/ r > 36 ->
   String_is_radix b T s r =
     error "String::is: Radix must be between 2 and 36, inclusive.") /\
  (2 <= r <= 36 ->
   ((exists v, String_to_radix b T s r = Return v) /\
    String_is_radix b T s r = Return true) \/
   ((exists msg, String_to_radix b T s r = error msg) /\
    String_is_radix b T s r = Return false)).
Proof.
  destruct (radix_check r) as [Hbad Hgood]. unfold String_is_radix. split.
  - intros H. apply Hbad in H. rewrite H. reflexivity.
  - intros H. apply Hgood in H. rewrite H.
    destruct (String_to_radix b T s r) as [v|e] eqn:E.
    + left. eauto.
    + right. destruct (String_to_radix_throws _ _ _ _ E) as [msg ->].
      unfold error. eauto.
Qed.

(** Radix 37, and "zz" in radix 16. *)
Lemma String_is_radix_probe_witness :
  String_is_radix true int_t (text "FF") 37 =
    error "String::is: Radix must be between 2 and 36, inclusive." /\
  (((exists v, String_to_radix true int_t (text "zz") 16 = Return v) /\
    String_is_radix true int_t (text "zz") 16 = Return true) \/
   ((exists msg, String_to_radix true int_t (text "zz") 16 = error msg) /\
    String_is_radix true int_t (text "zz") 16 = Return false)).
Proof.
  split.
  - apply (String_is_radix_probe true int_t (text "FF") 37). right. lia.
  - apply (String_is_radix_probe true int_t (text "zz") 16). lia.
Defined.

(** C2 at "12xy" in radix 10: the digits in front are converted and the
    characters after them are not looked at, so [to<int>] returns 12, and
    [is<int>] answers [true]. *)
Theorem String_to_radix_trailing_characters (b : bool) :
  String_to_radix b int_t (text "12xy") 10 = Return 12 /\
  String_is_radix b int_t (text "12xy") 10 = Return true.
Proof. destruct b; split; vm_compute; reflexivity. Qed.

(* --------------------------------------------------------------------- *)
(** ** URL encoding                                                       *)
(* --------------------------------------------------------------------- *)

(** A byte that is neither copied nor a space is written as a percent sign
    and exactly two upper-case hexadecimal digits when its [int] value is
    not negative: always where [char] is unsigned, and below 0x80 where it
    is signed. *)
Lemma urlEncoded_char_escape (char_signed : bool) (c : char) :
  url_unreserved c = false ->
  char_eqb c " "%char = false ->
  char_signed = false \/ code c < 128 ->
  urlEncoded_char char_signed c =
    ["%"%char; hex_digit (code c / 16); hex_digit (code c mod 16)].
Proof.
  destruct char_signed;
    destruct c as [[] [] [] [] [] [] [] []];
    intros H1 H2 H3; vm_compute in H1, H2 |- *;
    try discriminate; try reflexivity;
    destruct H3 as [H3|H3]; vm_compute in H3; discriminate.
Qed.

(** C3 at the byte 0x80 with a signed [char]: [int(c)] is -128, and its
    hexadecimal form has eight digits, not two. *)
Theorem urlEncoded_high_byte :
  int_of_char true (chr 128) = -128 /\
  _data (String_urlEncoded true (String_of_string [chr 128])) = str "%FFFFFF80" /\
  _data (String_urlEncoded false (String_of_string [chr 128])) = str "%80".
Proof. vm_compute. repeat split. Qed.

(* --------------------------------------------------------------------- *)
(** ** Relational operators                                               *)
(* --------------------------------------------------------------------- *)

(** [String::operator>] and the global [operator<] call each other without
    end: no number of nested calls is enough for either to return. *)
Lemma String_operator_gt_no_result (depth : nat) :
  (forall this lhs, String_operator_gt depth this lhs = None) /\
  (forall lhs rhs, operator_lt depth lhs rhs = None).
Proof.
  induction depth as [|n [IHgt IHlt]]; split; intros; simpl; auto.
Qed.

(** The forwards of the global operators, as they are written: each hands
    over to a member function with the operands exchanged, and three of
    the four exchange the operator as well. *)
Lemma global_operators_forward (char_signed : bool) (depth : nat)
  (x : StringView) (s : String) :
  operator_lt (S depth) x s = String_operator_gt depth s x /\
  operator_le char_signed x s = String_operator_ge char_signed s x /\
  operator_ge (S depth) x s = String_operator_le depth s x /\
  operator_gt (S depth) x s = String_operator_gt depth s x.
Proof. repeat split. Qed.

(** C4 at x = "b", s = "a": [s < x] is [true], while [x > s], which is
    evaluated as [s > x], returns nothing at any depth of calls. *)
Theorem operator_gt_text_on_left (char_signed : bool) (depth : nat) :
  String_operator_lt char_signed (text "a") (view "b") = true /\
  operator_gt depth (view "b") (text "a") = None /\
  operator_gt depth (view "b") (text "a")
    <> Some (String_operator_lt char_signed (text "a") (view "b")).
Proof.
  assert (H : operator_gt depth (view "b") (text "a") = None).
  { destruct depth; [reflexivity|]. simpl.
    apply (proj1 (String_operator_gt_no_result depth)). }
  split; [destruct char_signed; vm_compute; reflexivity|].
  split; [exact H | rewrite H; discriminate].
Qed.

(* --------------------------------------------------------------------- *)
(** ** Construction, slices and splices                                   *)
(* --------------------------------------------------------------------- *)

Lemma checkIndex_returns (index : Z) (why : string) (low high : Z) :
  returns (checkIndex index why low high) = false <-> index < low \/ index > high.
Proof.
  unfold checkIndex.
  destruct (index <? low) eqn:E1; [apply Z.ltb_lt in E1 | apply Z.ltb_ge in E1];
    (destruct (index >? high) eqn:E2;
     [apply Z.gtb_lt in E2 | rewrite Z.gtb_ltb in E2; apply Z.ltb_ge in E2]);
    simpl; split; intros; try discriminate; try lia; auto.
Qed.

Lemma checkIndex_cases (index : Z) (why : string) (low high : Z) :
  (checkIndex index why low high = Return tt /\ low <= index <= high) \/
  (exists msg, checkIndex index why low high = error msg /\
               (index < low \/ index > high)).
Proof.
  destruct (Z_lt_dec index low) as [H1|H1];
    [|destruct (Z_gt_dec index high) as [H2|H2]].
  - right. unfold checkIndex. apply Z.ltb_lt in H1 as E. rewrite E. simpl.
    eexists. split; [reflexivity | lia].
  - right. unfold checkIndex. apply Z.gt_lt, Z.gtb_lt in H2 as E. rewrite E.
    rewrite orb_true_r. eexists. split; [reflexivity | lia].
  - left. split; [apply checkIndex_in_range|]; lia.
Qed.

(** A [String] of [n] copies of [ch] has length [n] and holds [ch] at each
    index from 0 to [n - 1]; a negative [n] is refused. *)
Theorem String_of_copies_content (n : Z) (ch : char) :
  (n < 0 -> String_of_copies n ch = error "String::String: numCopies < 0") /\
  (0 <= n ->
   exists s, String_of_copies n ch = Return s /\
             String_length s = n /\
             forall i, 0 <= i < n -> String_at s i = Return ch).
Proof.
  unfold String_of_copies. split; intros H.
  - apply Z.ltb_lt in H. rewrite H. reflexivity.
  - destruct (n <? 0) eqn:E; [apply Z.ltb_lt in E; lia|].
    eexists. split; [reflexivity|].
    unfold String_length, String_at; simpl. rewrite repeat_length, Z2Nat.id by lia.
    split; [reflexivity|]. intros i Hi.
    unfold String_length; simpl. rewrite repeat_length, Z2Nat.id by lia.
    rewrite checkIndex_in_range by lia. simpl. f_equal.
    apply nth_repeat_lt. lia.
Qed.

(** Three copies of "z", and a count of -1. *)
Lemma String_of_copies_content_witness :
  String_of_copies (-1) "z"%char = error "String::String: numCopies < 0" /\
  exists s, String_of_copies 3 "z"%char = Return s /\
            String_length s = 3 /\
            forall i, 0 <= i < 3 -> String_at s i = Return "z"%char.
Proof.
  split.
  - apply (String_of_copies_content (-1) "z"%char). lia.
  - apply (String_of_copies_content 3 "z"%char). lia.
Defined.

(** [substr(start, length)] raises exactly when [start] is outside
    [0, length()] or [length] is negative; otherwise it returns the bytes
    from [start] on, as many as [length] asks for or as are left. *)
Theorem String_substr_clamped (s : String) (start len : Z) :
  (returns (String_substr s start len) = false
   <-> start < 0 \/ start > String_length s \/ len < 0) /\
  (forall r, String_substr s start len = Return r ->
             _data r = firstn (Z.to_nat len) (skipn (Z.to_nat start) (_data s)) /\
             String_length r = Z.min len (String_length s - start)).
Proof.
  unfold String_substr.
  destruct (checkIndex_cases start "substr" 0 (String_length s))
    as [[-> Hr]|[msg [-> Hr]]]; simpl.
  - destruct (len <? 0) eqn:E; [apply Z.ltb_lt in E | apply Z.ltb_ge in E]; simpl.
    + split; [split; intros; [lia | reflexivity] | intros r H; discriminate].
    + split; [split; intros; [discriminate | lia]|].
      intros r H. inversion H; subst r. clear H.
      unfold String_length in *. rewrite String_of_string_data.
      unfold std_substr. split; [reflexivity|].
      rewrite length_firstn, length_skipn. lia.
  - split; [split; intros; [lia | reflexivity] | intros r H; discriminate].
Qed.

(** The slice of "hello" that starts at 3 and asks for 10 bytes. *)
Lemma String_substr_clamped_witness :
  _data (text "lo") = firstn (Z.to_nat 10) (skipn (Z.to_nat 3) (_data (text "hello"))) /\
  String_length (text "lo") = Z.min 10 (String_length (text "hello") - 3).
Proof.
  apply (proj2 (String_substr_clamped (text "hello") 3 10) (text "lo")).
  vm_compute. reflexivity.
Defined.

(** Cutting a text at any index [k] from 0 to its length gives two slices
    that put together are the text. *)
Theorem String_substr_tiling (s : String) (k : Z)
  (Hk : 0 <= k <= String_length s) :
  exists a b,
    String_substr s 0 k = Return a /\
    String_substr_from s k = Return b /\
    _data a ++ _data b = _data s.
Proof.
  unfold String_substr_from, String_substr.
  rewrite !checkIndex_in_range by (pose proof (Zle_0_nat (length (_data s)));
                                   unfold String_length in *; lia).
  simpl.
  destruct (k <? 0) eqn:E1; [apply Z.ltb_lt in E1; lia|].
  destruct (String_length s <? 0) eqn:E2;
    [apply Z.ltb_lt in E2; unfold String_length in E2; lia|].
  do 2 eexists. split; [reflexivity|]. split; [reflexivity|].
  rewrite !String_of_string_data. unfold std_substr, String_length. simpl.
  rewrite Nat2Z.id. rewrite (firstn_all2 (n := length (_data s))).
  - apply firstn_skipn.
  - rewrite length_skipn. lia.
Qed.

(** "hello" cut at 2. *)
Lemma String_substr_tiling_witness :
  exists a b,
    String_substr (text "hello") 0 2 = Return a /\
    String_substr_from (text "hello") 2 = Return b /\
    _data a ++ _data b = _data (text "hello").
Proof.
  apply (@String_substr_tiling (text "hello") 2). vm_compute.
  split; discriminate.
Defined.

(** [remove(index, length)] raises exactly when [index] is outside
    [0, length()] or [length] is negative.  Otherwise the bytes before
    [index] and those from [index + length] on are kept, which shortens
    the text by [length] or by what was left after [index], and the
    version goes up by one; [index = length()] is accepted and removes
    nothing. *)
Theorem String_remove_effect (s : String) (index len : Z) :
  (returns (String_remove s index len) = false
   <-> index < 0 \/ index > String_length s \/ len < 0) /\
  (0 <= index <= String_length s -> 0 <= len ->
   exists r, String_remove s index len = Return r /\
             _data r = firstn (Z.to_nat index) (_data s)
                       ++ skipn (Z.to_nat index + Z.to_nat len) (_data s) /\
             String_length r
               = String_length s - Z.min len (String_length s - index) /\
             _version r = S (_version s)).
Proof.
  unfold String_remove.
  destruct (checkIndex_cases index "remove" 0 (String_length s))
    as [[-> Hr]|[msg [-> Hr]]]; simpl.
  - destruct (len <? 0) eqn:E; [apply Z.ltb_lt in E | apply Z.ltb_ge in E]; simpl.
    + split; [split; intros; [lia | reflexivity] | intros; lia].
    + split; [split; intros; [discriminate | lia]|].
      intros _ _. eexists. split; [reflexivity|]. simpl.
      unfold std_erase. split; [reflexivity|]. split; [|reflexivity].
      unfold String_length in *; simpl.
      rewrite length_app, length_firstn, length_skipn. lia.
  - split; [split; intros; [lia | reflexivity] | intros; lia].
Qed.

(** Removing one byte at the end of "hello": nothing goes. *)
Lemma String_remove_effect_witness :
  exists r, String_remove (text "hello") 5 1 = Return r /\
            _data r = firstn (Z.to_nat 5) (_data (text "hello"))
                      ++ skipn (Z.to_nat 5 + Z.to_nat 1) (_data (text "hello")) /\
            String_length r
              = String_length (text "hello")
                - Z.min 1 (String_length (text "hello") - 5) /\
            _version r = S (_version (text "hello")).
Proof.
  apply (proj2 (String_remove_effect (text "hello") 5 1)).
  - vm_compute. split; discriminate.
  - lia.
Defined.

(** [insert(index, text)] raises exactly when [index] is outside
    [0, length()]; otherwise the text stands between the bytes before
    [index] and those from [index] on, the length grows by its size and
    the version goes up by one. *)
Theorem String_insert_effect (s : String) (index : Z) (t : StringView) :
  (returns (String_insert s index t) = false
   <-> index < 0 \/ index > String_length s) /\
  (0 <= index <= String_length s ->
   exists r, String_insert s index t = Return r /\
             _data r = firstn (Z.to_nat index) (_data s) ++ StringView_bytes t
                       ++ skipn (Z.to_nat index) (_data s) /\
             String_length r
               = String_length s + Z.of_nat (length (StringView_bytes t)) /\
             _version r = S (_version s)).
Proof.
  unfold String_insert.
  destruct (checkIndex_cases index "insert" 0 (String_length s))
    as [[-> Hr]|[msg [-> Hr]]]; simpl.
  - split; [split; intros; [discriminate | lia]|].
    intros _. eexists. split; [reflexivity|]. simpl.
    unfold std_replace. rewrite Nat.add_0_r. split; [reflexivity|].
    split; [|reflexivity].
    unfold String_length in *; simpl.
    rewrite !length_app, length_firstn, length_skipn. lia.
  - split; [split; intros; [lia | reflexivity] | intros; lia].
Qed.

(** "--" put into "hello" at index 2. *)
Lemma String_insert_effect_witness :
  exists r, String_insert (text "hello") 2 (view "--") = Return r /\
            _data r = firstn (Z.to_nat 2) (_data (text "hello"))
                      ++ StringView_bytes (view "--")
                      ++ skipn (Z.to_nat 2) (_data (text "hello")) /\
            String_length r
              = String_length (text "hello")
                + Z.of_nat (length (StringView_bytes (view "--"))) /\
            _version r = S (_version (text "hello")).
Proof.
  apply (proj2 (String_insert_effect (text "hello") 2 (view "--"))).
  vm_compute. split; discriminate.
Defined.

Lemma splice_middle (pre t post : bytes) :
  firstn (length t) (skipn (length pre) (pre ++ t ++ post)) = t.
Proof.
  rewrite skipn_app, skipn_all, Nat.sub_diag. simpl.
  rewrite firstn_app, Nat.sub_diag, firstn_all. simpl. apply app_nil_r.
Qed.

Lemma splice_out (pre t post : bytes) :
  firstn (length pre) (pre ++ t ++ post)
  ++ skipn (length pre + length t) (pre ++ t ++ post) = pre ++ post.
Proof.
  rewrite firstn_app, firstn_all, Nat.sub_diag. simpl. rewrite app_nil_r.
  f_equal. rewrite app_assoc.
  rewrite <- (length_app pre t), skipn_app, skipn_all, Nat.sub_diag.
  reflexivity.
Qed.

(** After an insertion at a valid index, the slice of the inserted size at
    that index is the inserted text, and removing it gives the bytes from
    before the insertion back, two versions later. *)
Theorem String_insert_then_remove (s : String) (index : Z) (t : StringView)
  (Hi : 0 <= index <= String_length s) :
  let n := Z.of_nat (length (StringView_bytes t)) in
  exists r piece back,
    String_insert s index t = Return r /\
    String_substr r index n = Return piece /\
    _data piece = StringView_bytes t /\
    String_remove r index n = Return back /\
    _data back = _data s /\
    _version back = S (S (_version s)).
Proof.
  intros n. subst n.
  unfold String_insert. rewrite checkIndex_in_range by lia. simpl.
  eexists. eexists. eexists. split; [reflexivity|].
  set (tb := StringView_bytes t).
  assert (Hlen : String_length
                   (updateVersion
                      (mkString (std_replace (_data s) (Z.to_nat index) 0 tb)
                                (_version s)))
                 = String_length s + Z.of_nat (length tb)).
  { unfold String_length in *; simpl. unfold std_replace.
    rewrite !length_app, length_firstn, length_skipn. lia. }
  assert (Hpre : Z.to_nat index = length (firstn (Z.to_nat index) (_data s))).
  { unfold String_length in Hi. rewrite length_firstn. lia. }
  unfold String_substr, String_remove. rewrite !checkIndex_in_range by lia. simpl.
  destruct (Z.of_nat (length tb) <? 0) eqn:E; [apply Z.ltb_lt in E; lia|].
  split; [reflexivity|]. rewrite String_of_string_data. simpl.
  unfold std_substr, std_erase, std_replace. rewrite Nat.add_0_r, Nat2Z.id.
  set (pre := firstn (Z.to_nat index) (_data s)) in *.
  set (post := skipn (Z.to_nat index) (_data s)).
  rewrite Hpre.
  split; [apply splice_middle|]. split; [reflexivity|]. split; [|reflexivity].
  simpl _data. rewrite Nat2Z.id.
  transitivity (pre ++ post); [apply splice_out | apply firstn_skipn].
Qed.

(** "--" put into "hello" at index 2, read back and taken out again. *)
Lemma String_insert_then_remove_witness :
  exists r piece back,
    String_insert (text "hello") 2 (view "--") = Return r /\
    String_substr r 2 2 = Return piece /\
    _data piece = StringView_bytes (view "--") /\
    String_remove r 2 2 = Return back /\
    _data back = _data (text "hello") /\
    _version back = S (S (_version (text "hello"))).
Proof.
  apply (@String_insert_then_remove (text "hello") 2 (view "--")).
  vm_compute. split; discriminate.
Defined.

(* --------------------------------------------------------------------- *)
(** ** Trimming                                                           *)
(* --------------------------------------------------------------------- *)

Lemma trimStart_scan_skipn (rest : bytes) (k : nat) :
  (k <= trimStart_scan rest k)%nat /\
  skipn (trimStart_scan rest k - k) rest = skip_space rest.
Proof.
  revert k; induction rest as [|c rest IH]; intros k; simpl.
  - split; [lia|]. rewrite Nat.sub_diag. reflexivity.
  - destruct (isspace c).
    + destruct (IH (S k)) as [Hle Hsk]. split; [lia|].
      replace (trimStart_scan rest (S k) - k)%nat
        with (S (trimStart_scan rest (S k) - S k)) by lia.
      exact Hsk.
    + split; [lia|]. rewrite Nat.sub_diag. reflexivity.
Qed.

Lemma trimStartInPlace_skip_space (s : bytes) : trimStartInPlace s = skip_space s.
Proof.
  unfold trimStartInPlace.
  destruct (trimStart_scan_skipn s 0) as [_ H]. rewrite Nat.sub_0_r in H.
  destruct (0 <? trimStart_scan s 0)%nat eqn:E.
  - unfold std_erase. simpl. exact H.
  - apply Nat.ltb_ge in E. assert (E0 : trimStart_scan s 0 = O) by lia.
    rewrite E0 in H. exact H.
Qed.

Lemma trimEnd_scan_app (l x : bytes) (n : nat) :
  (n <= length l)%nat -> trimEnd_scan (l ++ x) n = trimEnd_scan l n.
Proof.
  induction n as [|n IH]; intros H; simpl; [reflexivity|].
  rewrite app_nth1 by lia. rewrite IH by lia. reflexivity.
Qed.

Lemma skip_space_app (l m : bytes) :
  skip_space (l ++ m) = if forallb isspace l then skip_space m else skip_space l ++ m.
Proof.
  induction l as [|c l IH]; simpl; [reflexivity|].
  destruct (isspace c); simpl; [exact IH | reflexivity].
Qed.

Lemma skip_space_nil (l : bytes) : forallb isspace l = true -> skip_space l = [].
Proof.
  induction l as [|c l IH]; simpl; [reflexivity|].
  destruct (isspace c); simpl; [exact IH | discriminate].
Qed.

Lemma strip_end_snoc (l : bytes) (c : char) :
  strip_end (l ++ [c]) = if isspace c then strip_end l else l ++ [c].
Proof.
  unfold strip_end. rewrite rev_app_distr. simpl.
  destruct (isspace c); [reflexivity|]. simpl. rewrite rev_involutive. reflexivity.
Qed.

Lemma trimEnd_scan_le (s : bytes) (n : nat) : (trimEnd_scan s n <= n)%nat.
Proof.
  induction n as [|n IH]; simpl; [lia|].
  destruct (isspace (nth n s NUL)); lia.
Qed.

Lemma trimEnd_scan_firstn (s : bytes) :
  firstn (trimEnd_scan s (length s)) s = strip_end s.
Proof.
  induction s as [|c l IH] using rev_ind; [reflexivity|].
  rewrite strip_end_snoc, length_app. simpl length.
  rewrite Nat.add_1_r. simpl trimEnd_scan.
  rewrite nth_middle.
  destruct (isspace c).
  - rewrite trimEnd_scan_app by lia. rewrite <- IH.
    pose proof (trimEnd_scan_le l (length l)) as Hle.
    rewrite firstn_app.
    replace (trimEnd_scan l (length l) - length l)%nat with O by lia.
    simpl. apply app_nil_r.
  - apply firstn_all2. rewrite length_app. simpl. lia.
Qed.

Lemma trimEndInPlace_strip_end (s : bytes) : trimEndInPlace s = strip_end s.
Proof.
  unfold trimEndInPlace. cbv zeta.
  pose proof (trimEnd_scan_le s (length s)) as Hle.
  rewrite <- trimEnd_scan_firstn.
  destruct (trimEnd_scan s (length s) <? length s)%nat eqn:E.
  - unfold std_erase.
    replace (trimEnd_scan s (length s) + (length s - trimEnd_scan s (length s)))%nat
      with (length s) by lia.
    rewrite skipn_all. apply app_nil_r.
  - apply Nat.ltb_ge in E. assert (E0 : trimEnd_scan s (length s) = length s) by lia.
    rewrite E0, firstn_all. reflexivity.
Qed.

Lemma skip_space_split (s : bytes) :
  exists a, s = a ++ skip_space s /\ forallb isspace a = true.
Proof.
  induction s as [|c s [a [Ha Hsp]]]; simpl.
  - exists []. split; reflexivity.
  - destruct (isspace c) eqn:E.
    + exists (c :: a). simpl. rewrite E, Hsp. split; [f_equal; exact Ha | reflexivity].
    + exists []. split; reflexivity.
Qed.

Lemma skip_space_head (s : bytes) :
  match skip_space s with
  | [] => True
  | c :: _ => isspace c = false
  end.
Proof.
  induction s as [|c s IH]; simpl; [exact I|].
  destruct (isspace c) eqn:E; [exact IH | exact E].
Qed.

Lemma skip_space_fixed (s : bytes) :
  match s with [] => True | c :: _ => isspace c = false end -> skip_space s = s.
Proof. destruct s as [|c s]; simpl; [reflexivity|]. intros ->. reflexivity. Qed.

Lemma skip_space_idem (s : bytes) : skip_space (skip_space s) = skip_space s.
Proof. apply skip_space_fixed, skip_space_head. Qed.

Lemma strip_end_idem (s : bytes) : strip_end (strip_end s) = strip_end s.
Proof. unfold strip_end. rewrite rev_involutive, skip_space_idem. reflexivity. Qed.

Lemma forallb_isspace_rev (l : bytes) : forallb isspace (rev l) = forallb isspace l.
Proof.
  induction l as [|c l IH]; simpl; [reflexivity|].
  rewrite forallb_app, IH. simpl. rewrite andb_true_r. apply andb_comm.
Qed.

Lemma strip_end_cons (c : char) (s : bytes) :
  strip_end (c :: s) =
  if forallb isspace s then (if isspace c then [] else [c]) else c :: strip_end s.
Proof.
  unfold strip_end. simpl rev. rewrite skip_space_app, forallb_isspace_rev.
  destruct (forallb isspace s).
  - simpl. destruct (isspace c); reflexivity.
  - rewrite rev_app_distr. reflexivity.
Qed.

(** The two ends can be trimmed in either order. *)
Lemma skip_space_strip_end (s : bytes) :
  skip_space (strip_end s) = strip_end (skip_space s).
Proof.
  induction s as [|c s IH]; [reflexivity|].
  rewrite strip_end_cons. simpl skip_space at 2.
  destruct (isspace c) eqn:Ec.
  - destruct (forallb isspace s) eqn:Es.
    + rewrite (skip_space_nil _ Es). reflexivity.
    + simpl. rewrite Ec. exact IH.
  - rewrite strip_end_cons, Ec.
    destruct (forallb isspace s); simpl; rewrite Ec; reflexivity.
Qed.

Lemma trimInPlace_idem (s : bytes) : trimInPlace (trimInPlace s) = trimInPlace s.
Proof.
  unfold trimInPlace.
  rewrite !trimStartInPlace_skip_space, !trimEndInPlace_strip_end.
  rewrite <- skip_space_strip_end, skip_space_idem, strip_end_idem.
  reflexivity.
Qed.

(** What [trim] keeps is the text without a run of white space in front
    and one at the end; it is empty or starts and ends with a byte that is
    not white space, and the version goes up by one. *)
Theorem String_trim_content (s : String) :
  exists front back,
    _data s = front ++ _data (String_trim s) ++ back /\
    forallb isspace front = true /\
    forallb isspace back = true /\
    match _data (String_trim s) with
    | [] => True
    | c :: _ => isspace c = false
    end /\
    match rev (_data (String_trim s)) with
    | [] => True
    | c :: _ => isspace c = false
    end /\
    _version (String_trim s) = S (_version s).
Proof.
  simpl. unfold trimInPlace.
  rewrite trimStartInPlace_skip_space, trimEndInPlace_strip_end.
  destruct (skip_space_split (strip_end (_data s))) as [front [Hf Hfs]].
  destruct (skip_space_split (rev (_data s))) as [kcab [Hb Hbs]].
  exists front, (rev kcab).
  split; [|split; [exact Hfs|split; [|split; [apply skip_space_head|split]]]].
  - rewrite app_assoc, <- Hf. unfold strip_end. rewrite <- rev_app_distr, <- Hb.
    symmetry. apply rev_involutive.
  - rewrite forallb_isspace_rev. exact Hbs.
  - rewrite skip_space_strip_end. unfold strip_end. rewrite rev_involutive.
    apply skip_space_head.
  - reflexivity.
Qed.

(** The two ends can be trimmed in either order, and trimming a second
    time changes no byte. *)
Theorem String_trim_order (s : String) :
  _data (String_trimFront (String_trimBack s))
  = _data (String_trimBack (String_trimFront s)) /\
  _data (String_trim s) = _data (String_trimFront (String_trimBack s)) /\
  _data (String_trim (String_trim s)) = _data (String_trim s).
Proof.
  simpl. split; [|split].
  - rewrite !trimStartInPlace_skip_space, !trimEndInPlace_strip_end.
    apply skip_space_strip_end.
  - reflexivity.
  - apply trimInPlace_idem.
Qed.

(** On a text that neither starts nor ends with white space, the three
    trimming operations change no byte, and still each of them moves the
    version on, so that a cursor issued before is not valid after. *)
Theorem String_trim_degenerate (s : String) (c : Cursor)
  (Hfront : match _data s with [] => True | x :: _ => isspace x = false end)
  (Hback : match rev (_data s) with [] => True | x :: _ => isspace x = false end)
  (Hc : cursor_valid s c = true) :
  _data (String_trim s) = _data s /\
  _data (String_trimFront s) = _data s /\
  _data (String_trimBack s) = _data s /\
  cursor_valid (String_trim s) c = false /\
  cursor_valid (String_trimFront s) c = false /\
  cursor_valid (String_trimBack s) c = false.
Proof.
  assert (Hs : skip_space (_data s) = _data s) by (apply skip_space_fixed, Hfront).
  assert (He : strip_end (_data s) = _data s).
  { unfold strip_end. rewrite (skip_space_fixed _ Hback). apply rev_involutive. }
  simpl. unfold trimInPlace.
  rewrite !trimEndInPlace_strip_end, He, !trimStartInPlace_skip_space, Hs.
  repeat split; try reflexivity.
  all: unfold cursor_valid in *; apply Nat.eqb_eq in Hc;
    apply Nat.eqb_neq; simpl; unfold VersionTracker_update; lia.
Qed.

(** "ab" and the cursor at its beginning. *)
Lemma String_trim_degenerate_witness :
  _data (String_trim (text "ab")) = _data (text "ab") /\
  _data (String_trimFront (text "ab")) = _data (text "ab") /\
  _data (String_trimBack (text "ab")) = _data (text "ab") /\
  cursor_valid (String_trim (text "ab")) (String_begin (text "ab")) = false /\
  cursor_valid (String_trimFront (text "ab")) (String_begin (text "ab")) = false /\
  cursor_valid (String_trimBack (text "ab")) (String_begin (text "ab")) = false.
Proof.
  apply (@String_trim_degenerate (text "ab") (String_begin (text "ab")));
    vm_compute; reflexivity.
Defined.

(* --------------------------------------------------------------------- *)
(** ** Searching                                                          *)
(* --------------------------------------------------------------------- *)

Lemma find_at_first (pat s : bytes) (i : nat) :
  match find_at pat s i with
  | Some k => exists j, k = (i + j)%nat /\
                        starts_with pat (skipn j s) = true /\
                        forall j', (j' < j)%nat -> starts_with pat (skipn j' s) = false
  | None => forall j, starts_with pat (skipn j s) = false
  end.
Proof.
  revert i; induction s as [|c s IH]; intros i; simpl.
  - destruct (starts_with pat []) eqn:E.
    + exists O. split; [lia|]. split; [exact E | intros; lia].
    + intros j. rewrite skipn_nil. exact E.
  - destruct (starts_with pat (c :: s)) eqn:E.
    + exists O. split; [lia|]. split; [exact E | intros; lia].
    + specialize (IH (S i)). destruct (find_at pat s (S i)) as [k|].
      * destruct IH as [j [-> [Hj Hmin]]]. exists (S j).
        split; [lia|]. split; [exact Hj|].
        intros [|j'] Hlt; [exact E | apply Hmin; lia].
      * intros [|j]; [exact E | apply IH].
Qed.

Lemma occurs_at_starts_with (data pat : bytes) (j : nat) :
  starts_with pat (skipn j data) = false -> occurs_at data pat j = false.
Proof. intros H. unfold occurs_at. rewrite H. apply andb_false_r. Qed.

(** [data.find] yields the first position from [pos] on at which the
    pattern stands, and [npos] when there is none. *)
Lemma std_find_first (data pat : bytes) (pos : nat) :
  match std_find data pat pos with
  | Some k => (pos <= k)%nat /\ occurs_at data pat k = true /\
              forall j, (pos <= j < k)%nat -> occurs_at data pat j = false
  | None => forall j, (pos <= j)%nat -> occurs_at data pat j = false
  end.
Proof.
  destruct (std_find data pat pos) as [k|] eqn:E.
  - pose proof (std_find_bound _ _ _ E) as [Hle Hfit].
    unfold std_find in E. destruct (length data <? pos)%nat; [discriminate|].
    pose proof (find_at_first pat (skipn pos data) pos) as H. rewrite E in H.
    destruct H as [j [-> [Hj Hmin]]]. rewrite skipn_skipn in Hj.
    split; [lia|]. split.
    + unfold occurs_at. apply andb_true_intro. split.
      * apply Nat.leb_le. lia.
      * rewrite (Nat.add_comm pos j). exact Hj.
    + intros j' Hj'. apply occurs_at_starts_with.
      specialize (Hmin (j' - pos)%nat). rewrite skipn_skipn in Hmin.
      replace (j' - pos + pos)%nat with j' in Hmin by lia. apply Hmin. lia.
  - unfold std_find in E. destruct (length data <? pos)%nat eqn:El.
    + apply Nat.ltb_lt in El. intros j Hj. unfold occurs_at.
      destruct (j + length pat <=? length data)%nat eqn:Ef; [|reflexivity].
      apply Nat.leb_le in Ef. lia.
    + pose proof (find_at_first pat (skipn pos data) pos) as H. rewrite E in H.
      intros j Hj. apply occurs_at_starts_with.
      specialize (H (j - pos)%nat). rewrite skipn_skipn in H.
      replace (j - pos + pos)%nat with j in H by lia. exact H.
Qed.

(** [find] raises when the start index is negative.  Otherwise it returns
    -1 when the text stands nowhere from the start index on, and else the
    first position from the start index on at which it stands. *)
Theorem String_find_first (s : String) (t : StringView) (i : Z) :
  (i < 0 -> returns (String_find s t i) = false) /\
  (0 <= i ->
   exists k, String_find s t i = Return k /\
     ((k = -1 /\
       forall j, (Z.to_nat i <= j)%nat ->
                 occurs_at (_data s) (StringView_bytes t) j = false) \/
      (i <= k /\
       occurs_at (_data s) (StringView_bytes t) (Z.to_nat k) = true /\
       forall j, (Z.to_nat i <= j < Z.to_nat k)%nat ->
                 occurs_at (_data s) (StringView_bytes t) j = false))).
Proof.
  unfold String_find. split; intros Hi.
  - apply Z.ltb_lt in Hi. rewrite Hi. reflexivity.
  - destruct (i <? 0) eqn:E; [apply Z.ltb_lt in E; lia|].
    pose proof (std_find_first (_data s) (StringView_bytes t) (Z.to_nat i)) as H.
    destruct (std_find _ _ _) as [k|].
    + exists (Z.of_nat k). split; [reflexivity|]. right.
      rewrite Nat2Z.id. destruct H as [Hle [Hocc Hmin]].
      split; [lia|]. split; assumption.
    + exists (-1). split; [reflexivity|]. left. split; [reflexivity | exact H].
Qed.

(** "na" in "banana" from index 3, and from index -1. *)
Lemma String_find_first_witness :
  returns (String_find (text "banana") (view "na") (-1)) = false /\
  exists k, String_find (text "banana") (view "na") 3 = Return k /\
    ((k = -1 /\
      forall j, (Z.to_nat 3 <= j)%nat ->
                occurs_at (_data (text "banana")) (StringView_bytes (view "na")) j = false) \/
     (3 <= k /\
      occurs_at (_data (text "banana")) (StringView_bytes (view "na")) (Z.to_nat k) = true /\
      forall j, (Z.to_nat 3 <= j < Z.to_nat k)%nat ->
                occurs_at (_data (text "banana")) (StringView_bytes (view "na")) j = false)).
Proof.
  split.
  - apply (String_find_first (text "banana") (view "na") (-1)). lia.
  - apply (String_find_first (text "banana") (view "na") 3). lia.
Defined.

Lemma rfind_from_last (data pat : bytes) (pos : nat) :
  match rfind_from data pat pos with
  | Some k => (k <= pos)%nat /\ starts_with pat (skipn k data) = true /\
              forall j, (k < j <= pos)%nat -> starts_with pat (skipn j data) = false
  | None => forall j, (j <= pos)%nat -> starts_with pat (skipn j data) = false
  end.
Proof.
  induction pos as [|pos IH]; cbn [rfind_from].
  - destruct (starts_with pat (skipn 0 data)) eqn:E.
    + split; [lia|]. split; [exact E | intros; lia].
    + intros j Hj. replace j with O by lia. exact E.
  - destruct (starts_with pat (skipn (S pos) data)) eqn:E.
    + split; [lia|]. split; [exact E | intros; lia].
    + destruct (rfind_from data pat pos) as [k|].
      * destruct IH as [Hle [Hk Hmax]]. split; [lia|]. split; [exact Hk|].
        intros j Hj. destruct (Nat.eq_dec j (S pos)) as [->|Hne];
          [exact E | apply Hmax; lia].
      * intros j Hj. destruct (Nat.eq_dec j (S pos)) as [->|Hne];
          [exact E | apply IH; lia].
Qed.

(** [data.rfind] yields the last position up to [pos] at which the
    pattern stands, and [npos] when there is none. *)
Lemma std_rfind_last (data pat : bytes) (pos : nat) :
  match std_rfind data pat pos with
  | Some k => (k <= pos)%nat /\ occurs_at data pat k = true /\
              forall j, (k < j <= pos)%nat -> occurs_at data pat j = false
  | None => forall j, (j <= pos)%nat -> occurs_at data pat j = false
  end.
Proof.
  unfold std_rfind. destruct (length pat <=? length data)%nat eqn:El.
  - apply Nat.leb_le in El.
    set (p := Nat.min (length data - length pat) pos).
    assert (Hout : forall j, (p < j <= pos)%nat -> occurs_at data pat j = false).
    { intros j Hj. unfold occurs_at.
      destruct (j + length pat <=? length data)%nat eqn:Ef; [|reflexivity].
      apply Nat.leb_le in Ef. lia. }
    pose proof (rfind_from_last data pat p) as H.
    destruct (rfind_from data pat p) as [k|].
    + destruct H as [Hle [Hk Hmax]]. split; [lia|]. split.
      * unfold occurs_at. rewrite Hk.
        assert (Hfit : (k + length pat <=? length data)%nat = true)
          by (apply Nat.leb_le; lia).
        rewrite Hfit. reflexivity.
      * intros j Hj. destruct (le_lt_dec j p) as [Hjp|Hjp].
        -- apply occurs_at_starts_with, Hmax. lia.
        -- apply Hout. lia.
    + intros j Hj. destruct (le_lt_dec j p) as [Hjp|Hjp].
      * apply occurs_at_starts_with, H. lia.
      * apply Hout. lia.
  - apply Nat.leb_gt in El. intros j Hj. unfold occurs_at.
    destruct (j + length pat <=? length data)%nat eqn:Ef; [|reflexivity].
    apply Nat.leb_le in Ef. lia.
Qed.

(** [findFromBack] raises when the limit index is negative.  Otherwise it
    returns -1 when the text stands at no position up to the limit index,
    and else the last position up to the limit index at which it stands. *)
Theorem String_findFromBack_last (s : String) (t : StringView) (i : Z) :
  (i < 0 -> returns (String_findFromBack_at s t i) = false) /\
  (0 <= i ->
   exists k, String_findFromBack_at s t i = Return k /\
     ((k = -1 /\
       forall j, (j <= Z.to_nat i)%nat ->
                 occurs_at (_data s) (StringView_bytes t) j = false) \/
      (0 <= k <= i /\
       occurs_at (_data s) (StringView_bytes t) (Z.to_nat k) = true /\
       forall j, (Z.to_nat k < j <= Z.to_nat i)%nat ->
                 occurs_at (_data s) (StringView_bytes t) j = false))).
Proof.
  unfold String_findFromBack_at. split; intros Hi.
  - apply Z.ltb_lt in Hi. rewrite Hi. reflexivity.
  - destruct (i <? 0) eqn:E; [apply Z.ltb_lt in E; lia|].
    pose proof (std_rfind_last (_data s) (StringView_bytes t) (Z.to_nat i)) as H.
    destruct (std_rfind _ _ _) as [k|].
    + exists (Z.of_nat k). split; [reflexivity|]. right.
      rewrite Nat2Z.id. destruct H as [Hle [Hocc Hmin]].
      split; [lia|]. split; assumption.
    + exists (-1). split; [reflexivity|]. left. split; [reflexivity | exact H].
Qed.

(** "na" in "banana" up to index 3, and up to index -1. *)
Lemma String_findFromBack_last_witness :
  returns (String_findFromBack_at (text "banana") (view "na") (-1)) = false /\
  exists k, String_findFromBack_at (text "banana") (view "na") 3 = Return k /\
    ((k = -1 /\
      forall j, (j <= Z.to_nat 3)%nat ->
                occurs_at (_data (text "banana")) (StringView_bytes (view "na")) j = false) \/
     (0 <= k <= 3 /\
      occurs_at (_data (text "banana")) (StringView_bytes (view "na")) (Z.to_nat k) = true /\
      forall j, (Z.to_nat k < j <= Z.to_nat 3)%nat ->
                occurs_at (_data (text "banana")) (StringView_bytes (view "na")) j = false)).
Proof.
  split.
  - apply (String_findFromBack_last (text "banana") (view "na") (-1)). lia.
  - apply (String_findFromBack_last (text "banana") (view "na") 3). lia.
Defined.

(** [contains] says whether the text is a part of the string; [find] from
    index 0 and [findFromBack] without a limit return -1 exactly when it
    is not. *)
Theorem String_contains_infix (s : String) (t : StringView) :
  (String_contains s t = true
   <-> exists p q, _data s = p ++ StringView_bytes t ++ q) /\
  (String_find s t 0 = Return (-1) <-> String_contains s t = false) /\
  (String_findFromBack s t = Return (-1) <-> String_contains s t = false).
Proof.
  split; [|split].
  - unfold String_contains.
    destruct (std_find (_data s) (StringView_bytes t) 0) as [k|] eqn:E.
    + split; [intros _|reflexivity].
      exists (firstn k (_data s)), (skipn (k + length (StringView_bytes t)) (_data s)).
      apply std_find_split, E.
    + split; [discriminate|]. intros [p [q H]]. rewrite H in E.
      exfalso. exact (std_find_occurs _ _ _ E).
  - unfold String_contains, String_find. simpl.
    destruct (std_find (_data s) (StringView_bytes t) 0) as [k|].
    + split; intros H; [|discriminate]. inversion H. lia.
    + split; reflexivity.
  - unfold String_findFromBack, String_findFromBack_at, String_contains, String_length.
    destruct (Z.of_nat (length (_data s)) <? 0) eqn:E; [apply Z.ltb_lt in E; lia|].
    rewrite Nat2Z.id.
    pose proof (std_rfind_last (_data s) (StringView_bytes t) (length (_data s))) as Hr.
    pose proof (std_find_first (_data s) (StringView_bytes t) 0) as Hf.
    destruct (std_rfind _ _ _) as [k|]; destruct (std_find _ _ 0) as [j|].
    + split; intros H; [inversion H; lia | discriminate].
    + destruct Hr as [_ [Hocc _]]. rewrite Hf in Hocc by lia. discriminate.
    + destruct Hf as [_ [Hocc _]].
      assert (Hj : (j <= length (_data s))%nat).
      { unfold occurs_at in Hocc. apply andb_prop in Hocc as [Hfit _].
        apply Nat.leb_le in Hfit. lia. }
      rewrite (Hr j Hj) in Hocc. discriminate.
    + split; reflexivity.
Qed.

(** [startsWith] and [endsWith] say whether the string is the text
    followed by something, or something followed by the text. *)
Theorem String_startsWith_endsWith (s : String) (t : StringView)
  (Hwf : StringView_wf t) :
  (String_startsWith s t = true <-> exists q, _data s = StringView_bytes t ++ q) /\
  (String_endsWith s t = true <-> exists p, _data s = p ++ StringView_bytes t).
Proof.
  pose proof (StringView_bytes_length Hwf) as Hsize.
  unfold String_startsWith, String_endsWith, String_length. rewrite <- Hsize.
  set (tb := StringView_bytes t). split.
  - destruct (Z.of_nat (length (_data s)) <? Z.of_nat (length tb)) eqn:E.
    + apply Z.ltb_lt in E. split; [discriminate|]. intros [q H].
      rewrite H, length_app in E. lia.
    + split.
      * intros H. eexists. apply starts_with_split, H.
      * intros [q ->]. apply starts_with_app.
  - cbv zeta.
    destruct (Z.of_nat (length (_data s)) - Z.of_nat (length tb) <? 0) eqn:E.
    + apply Z.ltb_lt in E. split; [discriminate|]. intros [p H].
      rewrite H, length_app in E. lia.
    + apply Z.ltb_ge in E.
      replace (Z.to_nat (Z.of_nat (length (_data s)) - Z.of_nat (length tb)))
        with (length (_data s) - length tb)%nat by lia.
      split.
      * intros H. exists (firstn (length (_data s) - length tb) (_data s)).
        apply starts_with_split in H. rewrite skipn_skipn in H.
        rewrite (@skipn_all2 _ (length tb + (length (_data s) - length tb)))
          in H by lia.
        rewrite app_nil_r in H.
        pose proof (firstn_skipn (length (_data s) - length tb) (_data s)) as Hd.
        rewrite H in Hd. symmetry. exact Hd.
      * intros [p ->]. rewrite length_app, Nat.add_sub, skipn_app, skipn_all.
        rewrite Nat.sub_diag. simpl.
        rewrite <- (app_nil_r tb) at 2. apply starts_with_app.
Qed.

(** "banana" against "ban" in front and at the end. *)
Lemma String_startsWith_endsWith_witness :
  (String_startsWith (text "banana") (view "ban") = true
   <-> exists q, _data (text "banana") = StringView_bytes (view "ban") ++ q) /\
  (String_endsWith (text "banana") (view "ban") = true
   <-> exists p, _data (text "banana") = p ++ StringView_bytes (view "ban")).
Proof.
  apply (@String_startsWith_endsWith (text "banana") (view "ban")).
  apply StringView_of_string_wf.
Defined.

(* --------------------------------------------------------------------- *)
(** ** Equality and order                                                 *)
(* --------------------------------------------------------------------- *)

Lemma std_equal_eq (a b : bytes) :
  length a = length b -> (std_equal a b = true <-> a = b).
Proof.
  revert b; induction a as [|x a IH]; intros [|y b] Hlen; simpl in *;
    try discriminate.
  - split; reflexivity.
  - injection Hlen as Hlen. specialize (IH b Hlen). split.
    + intros H. apply andb_prop in H as [Hx H]. apply Ascii.eqb_eq in Hx.
      apply IH in H. congruence.
    + intros H. injection H as -> ->. unfold char_eqb. rewrite Ascii.eqb_refl.
      apply IH. reflexivity.
Qed.

(** [==] holds exactly when the string and the text have the same bytes,
    [!=] exactly when they have not, and with the [String] on the right
    the answers are the same. *)
Theorem String_operator_eq_content (s : String) (t : StringView)
  (Hwf : StringView_wf t) :
  (String_operator_eq s t = true <-> _data s = StringView_bytes t) /\
  (String_operator_ne s t = true <-> _data s <> StringView_bytes t) /\
  operator_eq t s = String_operator_eq s t /\
  operator_ne t s = String_operator_ne s t.
Proof.
  pose proof (StringView_bytes_length Hwf) as Hsize.
  assert (Heq : String_operator_eq s t = true <-> _data s = StringView_bytes t).
  { unfold String_operator_eq, String_length. rewrite <- Hsize. split.
    - intros H. apply andb_prop in H as [Hl H]. apply Z.eqb_eq in Hl.
      apply std_equal_eq; [lia | exact H].
    - intros H. rewrite <- H. rewrite Z.eqb_refl. simpl.
      apply std_equal_eq; reflexivity. }
  split; [exact Heq|]. split; [|split; reflexivity].
  unfold String_operator_ne. destruct (String_operator_eq s t).
  - simpl. split; [discriminate|]. intros H. exfalso. apply H, Heq. reflexivity.
  - simpl. split; [|reflexivity]. intros _ H. apply Heq in H. discriminate.
Qed.

(** "abc" against the view of "abc". *)
Lemma String_operator_eq_content_witness :
  (String_operator_eq (text "abc") (view "abc") = true
   <-> _data (text "abc") = StringView_bytes (view "abc")) /\
  (String_operator_ne (text "abc") (view "abc") = true
   <-> _data (text "abc") <> StringView_bytes (view "abc")) /\
  operator_eq (view "abc") (text "abc") = String_operator_eq (text "abc") (view "abc") /\
  operator_ne (view "abc") (text "abc") = String_operator_ne (text "abc") (view "abc").
Proof.
  apply (@String_operator_eq_content (text "abc") (view "abc")).
  apply StringView_of_string_wf.
Defined.

Lemma code_range (c : char) : 0 <= code c < 256.
Proof.
  unfold code. pose proof (nat_ascii_bounded c). lia.
Qed.

Lemma code_inj (a b : char) : code a = code b -> a = b.
Proof.
  unfold code. intros H. apply Nat2Z.inj in H.
  rewrite <- (ascii_nat_embedding a), <- (ascii_nat_embedding b), H. reflexivity.
Qed.

Lemma int_of_char_inj (char_signed : bool) (a b : char) :
  int_of_char char_signed a = int_of_char char_signed b -> a = b.
Proof.
  unfold int_of_char. pose proof (code_range a). pose proof (code_range b).
  intros H1. apply code_inj.
  destruct char_signed; simpl in H1; [|exact H1].
  destruct (128 <=? code a) eqn:Ea; destruct (128 <=? code b) eqn:Eb;
    try apply Z.leb_le in Ea; try apply Z.leb_gt in Ea;
    try apply Z.leb_le in Eb; try apply Z.leb_gt in Eb; lia.
Qed.

Section LexicographicOrder.
Variable char_signed : bool.
Let lt := lexicographical_compare char_signed.

Lemma char_lt_cases (x y : char) :
  (char_lt char_signed x y = true /\ char_lt char_signed y x = false /\ x <> y) \/
  (char_lt char_signed x y = false /\ char_lt char_signed y x = false /\ x = y) \/
  (char_lt char_signed x y = false /\ char_lt char_signed y x = true /\ x <> y).
Proof.
  unfold char_lt.
  destruct (Z.lt_trichotomy (int_of_char char_signed x) (int_of_char char_signed y))
    as [H|[H|H]].
  - left. split; [apply Z.ltb_lt; lia|]. split; [apply Z.ltb_ge; lia|].
    intros ->. lia.
  - right; left. split; [apply Z.ltb_ge; lia|]. split; [apply Z.ltb_ge; lia|].
    apply (int_of_char_inj _ _ _ H).
  - right; right. split; [apply Z.ltb_ge; lia|]. split; [apply Z.ltb_lt; lia|].
    intros ->. lia.
Qed.

Lemma lex_irrefl (a : bytes) : lt a a = false.
Proof.
  induction a as [|x a IH]; simpl; [reflexivity|].
  destruct (char_lt_cases x x) as [[_ [_ H]]|[[H1 _]|[_ [_ H]]]];
    try congruence.
  unfold lt in *. simpl. rewrite H1. exact IH.
Qed.

Lemma lex_trichotomy (a b : bytes) :
  (lt a b = true /\ a <> b /\ lt b a = false) \/
  (lt a b = false /\ a = b /\ lt b a = false) \/
  (lt a b = false /\ a <> b /\ lt b a = true).
Proof.
  unfold lt. revert b; induction a as [|x a IH]; intros [|y b]; simpl.
  - right; left. repeat split.
  - left. repeat split. discriminate.
  - right; right. repeat split. discriminate.
  - destruct (char_lt_cases x y) as [[H1 [H2 Hne]]|[[H1 [H2 He]]|[H1 [H2 Hne]]]];
      rewrite H1, H2.
    + left. repeat split. congruence.
    + subst y. destruct (IH b) as [[Ha [Hn Hb]]|[[Ha [Hn Hb]]|[Ha [Hn Hb]]]].
      * left. repeat split; try assumption. congruence.
      * right; left. repeat split; try assumption. congruence.
      * right; right. repeat split; try assumption. congruence.
    + right; right. repeat split. congruence.
Qed.

Lemma char_lt_trans (x y z : char) :
  char_lt char_signed x y = true -> char_lt char_signed y z = true ->
  char_lt char_signed x z = true.
Proof. unfold char_lt. rewrite !Z.ltb_lt. lia. Qed.

Lemma lex_trans (a b c : bytes) :
  lt a b = true -> lt b c = true -> lt a c = true.
Proof.
  unfold lt. revert b c; induction a as [|x a IH]; intros [|y b] [|z c]; simpl;
    try discriminate; try reflexivity.
  destruct (char_lt_cases x y) as [[H1 [H2 Hne]]|[[H1 [H2 He]]|[H1 [H2 Hne]]]];
    rewrite ?H1, ?H2; try discriminate.
  - intros _.
    destruct (char_lt_cases y z) as [[G1 [G2 Gne]]|[[G1 [G2 Ge]]|[G1 [G2 Gne]]]];
      rewrite ?G1, ?G2; try discriminate.
    + intros _. rewrite (char_lt_trans _ _ _ H1 G1). reflexivity.
    + subst z. intros _. rewrite H1. reflexivity.
  - subst y.
    destruct (char_lt_cases x z) as [[G1 [G2 Gne]]|[[G1 [G2 Ge]]|[G1 [G2 Gne]]]];
      rewrite ?G1, ?G2; try discriminate; try reflexivity.
    apply IH.
Qed.
End LexicographicOrder.

(** [<] is a strict total order on the bytes: no string is below itself,
    the relation is transitive, and of two strings either one is below the
    other or they are equal, never two of these at once; [>=] is its
    negation. *)
Theorem String_operator_lt_order (char_signed : bool) (a b c : String) :
  let va := StringView_of_String a in
  let vb := StringView_of_String b in
  let vc := StringView_of_String c in
  String_operator_lt char_signed a va = false /\
  (String_operator_lt char_signed a vb = true ->
   String_operator_lt char_signed b vc = true ->
   String_operator_lt char_signed a vc = true) /\
  ((String_operator_lt char_signed a vb = true /\
    String_operator_eq a vb = false /\
    String_operator_lt char_signed b va = false) \/
   (String_operator_lt char_signed a vb = false /\
    String_operator_eq a vb = true /\
    String_operator_lt char_signed b va = false) \/
   (String_operator_lt char_signed a vb = false /\
    String_operator_eq a vb = false /\
    String_operator_lt char_signed b va = true)) /\
  String_operator_ge char_signed a vb = negb (String_operator_lt char_signed a vb).
Proof.
  cbv zeta. unfold String_operator_ge, String_operator_lt, StringView_of_String.
  rewrite !StringView_bytes_of_string.
  split; [apply lex_irrefl|]. split; [apply lex_trans|]. split; [|reflexivity].
  pose proof (String_operator_eq_content a (StringView_of_string_wf (_data b)))
    as [Heq _].
  rewrite StringView_bytes_of_string in Heq.
  destruct (lex_trichotomy char_signed (_data a) (_data b))
    as [[Ha [Hn Hb]]|[[Ha [Hn Hb]]|[Ha [Hn Hb]]]].
  - left. repeat split; try assumption.
    destruct (String_operator_eq a _); [exfalso; apply Hn, Heq; reflexivity|reflexivity].
  - right; left. repeat split; try assumption. apply Heq, Hn.
  - right; right. repeat split; try assumption.
    destruct (String_operator_eq a _); [exfalso; apply Hn, Heq; reflexivity|reflexivity].
Qed.

(** "a" below "ab" below "b". *)
Lemma String_operator_lt_order_witness :
  String_operator_lt true (text "a") (StringView_of_String (text "b")) = true.
Proof.
  apply (String_operator_lt_order true (text "a") (text "ab") (text "b"));
    vm_compute; reflexivity.
Defined.

(* --------------------------------------------------------------------- *)
(** ** URL encoding and decoding                                          *)
(* --------------------------------------------------------------------- *)

Lemma urlEncoded_char_plain (char_signed : bool) (c : char) :
  forallb url_plain (urlEncoded_char char_signed c) = true.
Proof.
  destruct char_signed; destruct c as [[] [] [] [] [] [] [] []];
    vm_compute; reflexivity.
Qed.

(** Whatever the input, the output of [urlEncoded] is made of letters,
    digits and the characters - _ . ~ * + % only. *)
Theorem String_urlEncoded_alphabet (char_signed : bool) (s : String) :
  forallb url_plain (_data (String_urlEncoded char_signed s)) = true.
Proof.
  unfold String_urlEncoded. rewrite String_of_string_data.
  induction (_data s) as [|c l IH]; simpl; [reflexivity|].
  rewrite forallb_app, urlEncoded_char_plain, IH. reflexivity.
Qed.

Lemma urlDecoded_loop_encoded_char (char_signed : bool) (c : char) (rest : bytes) :
  char_signed = false \/ code c < 128 ->
  urlDecoded_loop char_signed (urlEncoded_char char_signed c ++ rest)
  = (unescaped <- urlDecoded_loop char_signed rest ;; Return (c :: unescaped)).
Proof.
  destruct char_signed; destruct c as [[] [] [] [] [] [] [] []];
    intros H; try reflexivity;
    destruct H as [H|H]; vm_compute in H; discriminate.
Qed.

Lemma urlDecoded_loop_encoded (char_signed : bool) (l : bytes) :
  char_signed = false \/ forallb (fun c => code c <? 128) l = true ->
  urlDecoded_loop char_signed (flat_map (urlEncoded_char char_signed) l) = Return l.
Proof.
  intros H. induction l as [|c l IH]; [reflexivity|].
  simpl flat_map. rewrite urlDecoded_loop_encoded_char.
  - rewrite IH; [reflexivity|].
    destruct H as [H|H]; [left; exact H|right].
    simpl in H. apply andb_prop in H. apply H.
  - destruct H as [H|H]; [left; exact H|right].
    simpl in H. apply andb_prop in H as [H _]. apply Z.ltb_lt, H.
Qed.

(** Decoding what [urlEncoded] wrote gives the bytes back when no byte is
    negative as a [char]: for every text where [char] is unsigned, and for
    the texts with all bytes below 0x80 where it is signed. *)
Theorem String_url_round_trip (char_signed : bool) (s : String)
  (H : char_signed = false \/ forallb (fun c => code c <? 128) (_data s) = true) :
  exists r,
    String_urlDecoded char_signed (String_urlEncoded char_signed s) = Return r /\
    _data r = _data s.
Proof.
  unfold String_urlDecoded, String_urlEncoded.
  rewrite String_of_string_data, (@urlDecoded_loop_encoded char_signed _ H). simpl.
  eexists. split; [reflexivity | apply String_of_string_data].
Qed.

(** "a b/c~" with a signed [char]. *)
Lemma String_url_round_trip_witness :
  exists r,
    String_urlDecoded true (String_urlEncoded true (text "a b/c~")) = Return r /\
    _data r = _data (text "a b/c~").
Proof.
  apply (@String_url_round_trip true (text "a b/c~")). right. vm_compute. reflexivity.
Defined.

Lemma isxdigit_unreserved (c : char) : isxdigit c = true -> url_unreserved c = true.
Proof.
  destruct c as [[] [] [] [] [] [] [] []]; vm_compute; intros H;
    try reflexivity; discriminate.
Qed.

Lemma urlDecoded_loop_rejects (char_signed : bool) (n : nat) :
  forall l : bytes,
    (length l <= n)%nat ->
    existsb (fun c => negb (url_plain c)) l = true ->
    returns (urlDecoded_loop char_signed l) = false.
Proof.
  induction n as [|n IH]; intros [|c rest] Hn Hbad; simpl in *;
    try discriminate; try lia.
  unfold url_plain in Hbad.
  destruct (url_unreserved c) eqn:Eu.
  - simpl in Hbad. specialize (IH rest ltac:(lia) Hbad).
    destruct (urlDecoded_loop char_signed rest); [discriminate | reflexivity].
  - destruct (char_eqb c "+"%char) eqn:Ep.
    + simpl in Hbad. specialize (IH rest ltac:(lia) Hbad).
      destruct (urlDecoded_loop char_signed rest); [discriminate | reflexivity].
    + destruct (char_eqb c "%"%char) eqn:Eq; [|reflexivity].
      simpl in Hbad.
      destruct rest as [|ch1 [|ch2 rest']]; try reflexivity.
      destruct (isxdigit ch1) eqn:E1; [|reflexivity].
      destruct (isxdigit ch2) eqn:E2; [|reflexivity].
      simpl. simpl in Hbad, Hn.
      unfold url_plain in Hbad.
      rewrite (isxdigit_unreserved _ E1), (isxdigit_unreserved _ E2) in Hbad.
      simpl in Hbad. specialize (IH rest' ltac:(lia) Hbad).
      destruct (urlDecoded_loop char_signed rest'); [discriminate | reflexivity].
Qed.

(** [urlDecoded] raises on every text that holds a byte other than a
    letter, a digit or one of - _ . ~ * + %, wherever that byte stands; and
    on a percent sign that two bytes follow of which one is no hexadecimal
    digit. *)
Theorem String_urlDecoded_rejects (char_signed : bool) (s : String) :
  (existsb (fun c => negb (url_plain c)) (_data s) = true ->
   returns (String_urlDecoded char_signed s) = false) /\
  (forall ch1 ch2 rest,
      _data s = "%"%char :: ch1 :: ch2 :: rest ->
      isxdigit ch1 && isxdigit ch2 = false ->
      String_urlDecoded char_signed s = error "urlDecode: Invalid percent-encoding").
Proof.
  unfold String_urlDecoded. split.
  - intros H.
    pose proof (@urlDecoded_loop_rejects char_signed _ (_data s) (le_n _) H) as Hr.
    destruct (urlDecoded_loop char_signed (_data s)); [discriminate | reflexivity].
  - intros ch1 ch2 rest -> Hx. simpl. rewrite Hx. reflexivity.
Qed.

(** "a b", with its space, and "%4G". *)
Lemma String_urlDecoded_rejects_witness :
  returns (String_urlDecoded true (text "a b")) = false /\
  String_urlDecoded true (text "%4G") = error "urlDecode: Invalid percent-encoding".
Proof.
  split.
  - apply (String_urlDecoded_rejects true (text "a b")). vm_compute. reflexivity.
  - apply (proj2 (String_urlDecoded_rejects true (text "%4G")) "4"%char "G"%char []);
      vm_compute; reflexivity.
Defined.

(* --------------------------------------------------------------------- *)
(** ** Conversions                                                        *)
(* --------------------------------------------------------------------- *)

Lemma radixConvert_range (b : bool) (T : IntegralType) (converter : outcome Z) (v : Z) :
  radixConvert b T converter = Return v ->
  converter = Return v /\ type_min T <= v <= type_max T.
Proof.
  unfold radixConvert. destruct converter as [x|e]; simpl.
  - destruct (type_min T <=? x) eqn:E1; destruct (x <=? type_max T) eqn:E2; simpl;
      try (unfold error; simpl; destruct b; discriminate).
    intros H. inversion H; subst. apply Z.leb_le in E1, E2. split; [reflexivity | lia].
  - destruct (is_std_exception b e); discriminate.
Qed.

(** Whenever [to<T>(s, r)] returns, the radix is one of 2 to 36 and the
    value lies between the least and the greatest value of [T]. *)
Theorem String_to_radix_in_range (b : bool) (T : IntegralType) (s : String)
  (r v : Z) (H : String_to_radix b T s r = Return v) :
  2 <= r <= 36 /\ type_min T <= v <= type_max T.
Proof.
  unfold String_to_radix in H.
  destruct ((r <? 2) || (r >? 36)) eqn:E; [discriminate|].
  split; [apply radix_check, E|].
  unfold radixTo in H. destruct (is_unsigned T);
    apply radixConvert_range in H; apply H.
Qed.

(** "7f" in radix 16 as an [int]. *)
Lemma String_to_radix_in_range_witness :
  2 <= 16 <= 36 /\ type_min int_t <= 127 <= type_max int_t.
Proof.
  apply (@String_to_radix_in_range true int_t (text "7f") 16 127).
  vm_compute. reflexivity.
Defined.

Lemma trimInPlace_padding (front d back : bytes) :
  forallb isspace front = true -> forallb isspace back = true ->
  trimInPlace (front ++ d ++ back) = trimInPlace d.
Proof.
  intros Hf Hb. unfold trimInPlace.
  rewrite !trimStartInPlace_skip_space, !trimEndInPlace_strip_end.
  assert (He : strip_end (front ++ d ++ back) = strip_end (front ++ d)).
  { unfold strip_end. rewrite app_assoc, rev_app_distr, skip_space_app.
    rewrite forallb_isspace_rev, Hb. reflexivity. }
  rewrite He, skip_space_strip_end, skip_space_app, Hf.
  symmetry. apply skip_space_strip_end.
Qed.

(** White space in front of the text and after it does not change what
    [to<T>(s, r)] and [is<T>(s, r)] answer. *)
Theorem String_to_radix_padding (b : bool) (T : IntegralType) (s : String)
  (r : Z) (front back : bytes) (ver : VersionTracker)
  (Hf : forallb isspace front = true) (Hb : forallb isspace back = true) :
  let padded := mkString (front ++ _data s ++ back) ver in
  String_to_radix b T padded r = String_to_radix b T s r /\
  String_is_radix b T padded r = String_is_radix b T s r.
Proof.
  cbv zeta.
  assert (H : String_to_radix b T (mkString (front ++ _data s ++ back) ver) r
              = String_to_radix b T s r).
  { unfold String_to_radix, String_trimmed. simpl.
    rewrite (trimInPlace_padding _ _ _ Hf Hb). reflexivity. }
  split; [exact H|]. unfold String_is_radix. rewrite H. reflexivity.
Qed.

(** "2a" between a tab and two spaces. *)
Lemma String_to_radix_padding_witness :
  let padded := mkString ([chr 9] ++ _data (text "2a") ++ str "  ") O in
  String_to_radix true int_t padded 16 = String_to_radix true int_t (text "2a") 16 /\
  String_is_radix true int_t padded 16 = String_is_radix true int_t (text "2a") 16.
Proof.
  apply (@String_to_radix_padding true int_t (text "2a") 16 [chr 9] (str "  ") O);
    vm_compute; reflexivity.
Defined.

(** For an unsigned [T] and a radix from 2 to 36, a text that is empty
    once trimmed, or that then starts with a minus sign, is refused. *)
Theorem String_to_radix_unsigned_minus (b : bool) (T : IntegralType) (s : String)
  (r : Z) (Hu : is_unsigned T = true) (Hr : 2 <= r <= 36)
  (Hs : match trimInPlace (_data s) with
        | [] => True
        | c :: _ => c = "-"%char
        end) :
  returns (String_to_radix b T s r) = false /\
  String_is_radix b T s r = Return false.
Proof.
  assert (H : returns (String_to_radix b T s r) = false).
  { unfold String_to_radix, radixTo, String_trimmed. simpl.
    apply radix_check in Hr. rewrite Hr, Hu.
    destruct (trimInPlace (_data s)) as [|c rest].
    - unfold radixConvert. simpl. destruct b; reflexivity.
    - subst c. unfold radixConvert. simpl. destruct b; reflexivity. }
  split; [exact H|].
  unfold String_is_radix. apply radix_check in Hr. rewrite Hr.
  destruct (String_to_radix b T s r) as [v|e] eqn:E; [discriminate|].
  destruct (String_to_radix_throws _ _ _ _ E) as [msg ->]. reflexivity.
Qed.

(** " -1" as an [unsigned int] in radix 10. *)
Lemma String_to_radix_unsigned_minus_witness :
  returns (String_to_radix true unsigned_int_t (text " -1") 10) = false /\
  String_is_radix true unsigned_int_t (text " -1") 10 = Return false.
Proof.
  apply (@String_to_radix_unsigned_minus true unsigned_int_t (text " -1") 10);
    [reflexivity | lia | vm_compute; reflexivity].
Defined.

Lemma bytes_eqb_eq (a b : bytes) : bytes_eqb a b = true <-> a = b.
Proof.
  unfold bytes_eqb. rewrite String.eqb_eq. split; [|congruence].
  intros H. rewrite <- (list_ascii_of_string_of_list_ascii a),
                    <- (list_ascii_of_string_of_list_ascii b), H. reflexivity.
Qed.

(** [to<bool>] returns [true] on "true", [false] on "false" and raises on
    every other text; [is<bool>] answers without raising; and a [bool]
    written by [from] is read back by [to]. *)
Theorem String_to_bool_words (s : String) (v : bool) :
  (String_to_bool s = Return v
   <-> _data s = str (if v then "true" else "false")) /\
  (returns (String_to_bool s) = false
   <-> _data s <> str "true" /\ _data s <> str "false") /\
  String_is String_to_bool s = Return (returns (String_to_bool s)) /\
  String_to_bool (from_bool v) = Return v.
Proof.
  unfold String_is, String_to_bool.
  destruct (bytes_eqb (_data s) (str "true")) eqn:Et.
  - apply bytes_eqb_eq in Et. rewrite Et. simpl.
    split; [|split; [|split; [reflexivity | destruct v; reflexivity]]].
    + destruct v; split; intros H; try reflexivity; discriminate.
    + split; [discriminate | intros [H _]; congruence].
  - destruct (bytes_eqb (_data s) (str "false")) eqn:Ef.
    + apply bytes_eqb_eq in Ef. rewrite Ef. simpl.
      split; [|split; [|split; [reflexivity | destruct v; reflexivity]]].
      * destruct v; split; intros H; try reflexivity; discriminate.
      * split; [discriminate | intros [_ H]; congruence].
    + simpl. split; [|split; [|split; [reflexivity | destruct v; reflexivity]]].
      * split; [discriminate|]. intros H. rewrite H in Et, Ef.
        destruct v; [rewrite (proj2 (bytes_eqb_eq _ _) eq_refl) in Et
                    | rewrite (proj2 (bytes_eqb_eq _ _) eq_refl) in Ef]; discriminate.
      * split; [|reflexivity]. intros _. split; intros H; rewrite H in *.
        -- rewrite (proj2 (bytes_eqb_eq _ _) eq_refl) in Et. discriminate.
        -- rewrite (proj2 (bytes_eqb_eq _ _) eq_refl) in Ef. discriminate.
Qed.

Lemma digit_value_class (c : char) (d : Z) :
  digit_value c = Some d ->
  isspace c = false /\ char_eqb c "-"%char = false /\ char_eqb c "+"%char = false /\
  0 <= d /\ (char_eqb c "x"%char || char_eqb c "X"%char = true -> d = 33).
Proof.
  destruct c as [[] [] [] [] [] [] [] []]; vm_compute; intros H;
    try discriminate H; injection H as <-;
    repeat split; try reflexivity; try discriminate; intros; discriminate.
Qed.

Lemma is_digit_in_value (r : Z) (c : char) :
  is_digit_in r c = true -> exists d, digit_value c = Some d /\ d < r.
Proof.
  unfold is_digit_in. destruct (digit_value c) as [d|]; [|discriminate].
  intros H. apply Z.ltb_lt in H. eauto.
Qed.

Lemma parse_digits_positional (r : Z) (l : bytes) (acc : Z) (any : bool) :
  forallb (is_digit_in r) l = true ->
  parse_digits r l acc any
  = (fold_left (fun a c => a * r + match digit_value c with
                                   | Some d => d
                                   | None => 0
                                   end) l acc,
     any || negb (match l with [] => true | _ => false end)).
Proof.
  revert acc any; induction l as [|c l IH]; intros acc any H; simpl.
  - rewrite orb_false_r. reflexivity.
  - simpl in H. apply andb_prop in H as [Hc Hl].
    destruct (is_digit_in_value _ _ Hc) as [d [Hd Hlt]]. rewrite Hd.
    apply Z.ltb_lt in Hlt. rewrite Hlt. rewrite (IH _ _ Hl).
    rewrite orb_true_r. reflexivity.
Qed.

Lemma fold_positional_nonneg (r : Z) (l : bytes) (acc : Z) :
  0 <= r -> 0 <= acc ->
  0 <= fold_left (fun a c => a * r + match digit_value c with
                                     | Some d => d
                                     | None => 0
                                     end) l acc.
Proof.
  intros Hr. revert acc; induction l as [|c l IH]; intros acc Hacc; simpl; [exact Hacc|].
  apply IH. destruct (digit_value c) as [d|] eqn:E; [|nia].
  pose proof (digit_value_class _ E) as [_ [_ [_ [Hd _]]]]. nia.
Qed.

(** The digits as the scanner of [strtoll] sees them: no white space or
    sign is taken off in front, no prefix is skipped, and the run of
    digits is the whole text. *)
Lemma scan_number_digits (r : Z) (l : bytes) :
  l <> [] -> forallb (is_digit_in r) l = true ->
  scan_number l r = Some (false, positional r l).
Proof.
  intros Hne Hall. unfold scan_number.
  destruct l as [|c l]; [congruence|].
  simpl in Hall. apply andb_prop in Hall as [Hc Hl].
  destruct (is_digit_in_value _ _ Hc) as [d [Hd Hlt]].
  pose proof (digit_value_class _ Hd) as [Hsp [Hm [Hp [Hd0 Hx]]]].
  simpl skip_space. rewrite Hsp. unfold take_sign. rewrite Hm, Hp.
  assert (Hpre : skip_prefix r (c :: l) = c :: l).
  { unfold skip_prefix. destruct l as [|x [|h rest]]; try reflexivity.
    destruct (r =? 16) eqn:Er; [|reflexivity]. apply Z.eqb_eq in Er.
    destruct (char_eqb c "0"%char); [|reflexivity].
    destruct (char_eqb x "x"%char || char_eqb x "X"%char) eqn:Exx; [|reflexivity].
    simpl in Hl. apply andb_prop in Hl as [Hxd _].
    destruct (is_digit_in_value _ _ Hxd) as [dx [Hdx Hltx]].
    pose proof (digit_value_class _ Hdx) as [_ [_ [_ [_ H33]]]].
    specialize (H33 Exx). lia. }
  rewrite Hpre.
  rewrite parse_digits_positional by (simpl; rewrite Hc, Hl; reflexivity).
  reflexivity.
Qed.

Lemma forallb_rev_eq (f : char -> bool) (l : bytes) :
  forallb f (rev l) = forallb f l.
Proof.
  induction l as [|c l IH]; simpl; [reflexivity|].
  rewrite forallb_app, IH. simpl. rewrite andb_true_r. apply andb_comm.
Qed.

Lemma trimInPlace_digits (r : Z) (l : bytes) :
  forallb (is_digit_in r) l = true -> trimInPlace l = l.
Proof.
  intros Hall. unfold trimInPlace.
  rewrite trimStartInPlace_skip_space, trimEndInPlace_strip_end.
  assert (Hns : forall m, forallb (is_digit_in r) m = true ->
                          match m with [] => True | c :: _ => isspace c = false end).
  { intros [|c m] H; [exact I|]. simpl in H. apply andb_prop in H as [Hc _].
    destruct (is_digit_in_value _ _ Hc) as [d [Hd _]].
    apply (digit_value_class _ Hd). }
  assert (He : strip_end l = l).
  { unfold strip_end. rewrite skip_space_fixed; [apply rev_involutive|].
    apply Hns. rewrite forallb_rev_eq. exact Hall. }
  rewrite He. apply skip_space_fixed, Hns, Hall.
Qed.

(** A text that is a run of digits of the radix, and nothing else, is
    converted to the number the digits denote when that number is a value
    of [T], and is refused when it is not. *)
Theorem String_to_radix_digits (b : bool) (T : IntegralType) (s : String) (r : Z)
  (Hfit : IntegralType_fits T) (Hr : 2 <= r <= 36) (Hne : _data s <> [])
  (Hall : forallb (is_digit_in r) (_data s) = true) :
  String_to_radix b T s r =
  if (type_min T <=? positional r (_data s)) && (positional r (_data s) <=? type_max T)
  then Return (positional r (_data s))
  else error "String::to: Could not convert string to that type.".
Proof.
  unfold String_to_radix, String_trimmed. simpl.
  apply radix_check in Hr as Hrb. rewrite Hrb.
  rewrite (@trimInPlace_digits r _ Hall).
  set (v := positional r (_data s)).
  assert (Hv : 0 <= v) by (apply fold_positional_nonneg; lia).
  unfold radixTo, IntegralType_fits in *.
  destruct (is_unsigned T).
  - destruct (_data s) as [|c l] eqn:Ed; [congruence|].
    assert (Hm : char_eqb c "-"%char = false).
    { simpl in Hall. apply andb_prop in Hall as [Hc _].
      destruct (is_digit_in_value _ _ Hc) as [d [Hd _]].
      apply (digit_value_class _ Hd). }
    rewrite Hm. unfold stoull. rewrite (@scan_number_digits r _ Hne Hall). fold v.
    unfold radixConvert.
    destruct (v <=? ULLONG_MAX) eqn:Eu; simpl.
    + destruct ((type_min T <=? v) && (v <=? type_max T)); [reflexivity|].
      simpl. destruct b; reflexivity.
    + apply Z.leb_gt in Eu.
      destruct (v <=? type_max T) eqn:Et; [apply Z.leb_le in Et; lia|].
      rewrite andb_false_r. reflexivity.
  - unfold stoll. rewrite (@scan_number_digits r _ Hne Hall). fold v.
    unfold radixConvert.
    destruct ((LLONG_MIN <=? v) && (v <=? LLONG_MAX)) eqn:El; simpl.
    + destruct ((type_min T <=? v) && (v <=? type_max T)); [reflexivity|].
      simpl. destruct b; reflexivity.
    + destruct (v <=? type_max T) eqn:Et.
      * apply Z.leb_le in Et. apply andb_false_iff in El as [El|El];
          [apply Z.leb_gt in El; unfold LLONG_MIN in *; lia
          | apply Z.leb_gt in El; lia].
      * rewrite andb_false_r. reflexivity.
Qed.

(** "zz" in radix 36 as an [int]: 35 * 36 + 35. *)
Lemma String_to_radix_digits_witness :
  String_to_radix true int_t (text "zz") 36 = Return 1295.
Proof.
  apply (@String_to_radix_digits true int_t (text "zz") 36);
    [vm_compute; split; discriminate | lia | discriminate | reflexivity].
Defined.

(* --------------------------------------------------------------------- *)
(** ** More on split, join and replace-all                                *)
(* --------------------------------------------------------------------- *)

Lemma starts_with_firstn (pat x : bytes) (m : nat) :
  starts_with pat (firstn m x) = true -> starts_with pat x = true.
Proof.
  revert x m; induction pat as [|p pat IH]; intros x m H; [reflexivity|].
  destruct x as [|c x]; [rewrite firstn_nil in H; discriminate|].
  destruct m as [|m]; [discriminate|]. simpl in *.
  apply andb_prop in H as [Hc H]. rewrite Hc. simpl. exact (IH _ _ H).
Qed.

(** No delimiter stands inside what lies before its first occurrence. *)
Lemma std_find_before_first (s pat : bytes) (k : nat) :
  pat <> [] -> std_find s pat 0 = Some k -> std_find (firstn k s) pat 0 = None.
Proof.
  intros Hne E.
  pose proof (std_find_first s pat 0) as H. rewrite E in H.
  destruct H as [_ [_ Hmin]].
  pose proof (std_find_first (firstn k s) pat 0) as G.
  destruct (std_find (firstn k s) pat 0) as [j|]; [|reflexivity].
  destruct G as [_ [Hocc _]]. exfalso.
  unfold occurs_at in Hocc. apply andb_prop in Hocc as [Hfit Hst].
  apply Nat.leb_le in Hfit. rewrite length_firstn in Hfit.
  assert (Hlen : (0 < length pat)%nat) by (destruct pat; [congruence | simpl; lia]).
  rewrite skipn_firstn_comm in Hst. apply starts_with_firstn in Hst.
  specialize (Hmin j ltac:(lia)). unfold occurs_at in Hmin. rewrite Hst in Hmin.
  pose proof (std_find_bound _ _ _ E) as [_ Hk].
  rewrite andb_true_r in Hmin. apply Nat.leb_gt in Hmin. lia.
Qed.

Lemma split_loop_parts (d : char) (ds : bytes) (n : nat) :
  forall s : bytes,
    (length s <= n)%nat ->
    Forall (fun part => _data part <> [] /\ std_find (_data part) (d :: ds) 0 = None)
           (split_loop d ds s []).
Proof.
  induction n as [|n IH]; intros s Hn; rewrite split_loop_step.
  - destruct (std_find s (d :: ds) 0) as [k|] eqn:E.
    + apply std_find_bound in E. simpl in E. lia.
    + destruct s; [constructor | simpl in Hn; lia].
  - destruct (std_find s (d :: ds) 0) as [k|] eqn:E.
    + pose proof (std_find_bound _ _ _ E) as [_ Hk].
      assert (Hrest : (length (std_erase s 0 (k + length (d :: ds))) <= n)%nat).
      { unfold std_erase. simpl in *. rewrite length_skipn. lia. }
      rewrite (@split_loop_result d ds _ _ _ (le_n _)).
      apply Forall_app. split; [|apply IH, Hrest].
      destruct (k =? 0)%nat eqn:Ek; simpl; [constructor|].
      apply Nat.eqb_neq in Ek. constructor; [|constructor].
      rewrite String_of_string_data. unfold std_substr. simpl skipn. split.
      * intros H. apply (f_equal (@length char)) in H.
        rewrite length_firstn in H. simpl in *. lia.
      * apply std_find_before_first; [discriminate | exact E].
    + destruct (0 <? length s)%nat eqn:El; [|constructor].
      constructor; [|constructor]. rewrite String_of_string_data.
      split; [|exact E]. intros ->. discriminate.
Qed.

(** Every part that [split] yields is non-empty and holds no delimiter;
    a text without any delimiter comes back as its only part, and the
    empty text has no parts. *)
Theorem String_split_parts (s : String) (d : StringView)
  (Hd : StringView_bytes d <> []) :
  exists parts,
    String_split s d = Return parts /\
    Forall (fun part => String_isEmpty part = false /\ String_contains part d = false)
           parts /\
    (String_contains s d = false ->
     map _data parts = if String_isEmpty s then [] else [_data s]).
Proof.
  unfold String_split, stringSplit.
  destruct (StringView_bytes d) as [|c cs] eqn:Ed; [congruence|].
  eexists. split; [reflexivity|]. split.
  - eapply Forall_impl; [|apply (@split_loop_parts c cs _ _ (le_n _))].
    intros part [Hne Hfind]. unfold String_isEmpty, String_contains.
    rewrite Ed, Hfind. split; [|reflexivity].
    destruct (_data part); [congruence | reflexivity].
  - unfold String_contains, String_isEmpty. rewrite Ed. intros H.
    rewrite split_loop_step.
    destruct (std_find (_data s) (c :: cs) 0); [discriminate|].
    destruct (_data s) eqn:Es; simpl; [reflexivity|].
    rewrite StringView_bytes_of_string. reflexivity.
Qed.

(** "a--b-c" split on "--". *)
Lemma String_split_parts_witness :
  exists parts,
    String_split (text "a--b-c") (view "--") = Return parts /\
    Forall (fun part => String_isEmpty part = false
                        /\ String_contains part (view "--") = false) parts /\
    (String_contains (text "a--b-c") (view "--") = false ->
     map _data parts
     = if String_isEmpty (text "a--b-c") then [] else [_data (text "a--b-c")]).
Proof.
  apply (@String_split_parts (text "a--b-c") (view "--")). vm_compute. discriminate.
Defined.

Lemma join_data_length (delim : bytes) (parts : list bytes) :
  Z.of_nat (length (join_data delim parts))
  = Z.of_nat (length (concat parts))
    + Z.of_nat (length delim) * Z.of_nat (Nat.pred (length parts)).
Proof.
  induction parts as [|x rest IH]; [simpl; lia|].
  destruct rest as [|y rest].
  - simpl. rewrite !app_nil_r. lia.
  - change (join_data delim (x :: y :: rest))
      with (x ++ delim ++ join_data delim (y :: rest)).
    change (concat (x :: y :: rest)) with (x ++ concat (y :: rest)).
    set (J := join_data delim (y :: rest)) in *.
    set (C := concat (y :: rest)) in *.
    rewrite !length_app. simpl length in *. simpl Nat.pred in *. lia.
Qed.

(** [join] writes the elements in order with the delimiter between each
    two of them and nowhere else; so the length of the result is the sum
    of the lengths plus one delimiter for each element but the first. *)
Theorem String_join_content (v : list String) (d : StringView) :
  _data (String_join v d) = join_data (StringView_bytes d) (map _data v) /\
  String_length (String_join v d)
  = Z.of_nat (length (concat (map _data v)))
    + Z.of_nat (length (StringView_bytes d)) * Z.of_nat (Nat.pred (length v)).
Proof.
  assert (H : _data (String_join v d)
              = join_data (StringView_bytes d) (map _data v)).
  { unfold String_join. rewrite join_loop_data. reflexivity. }
  split; [exact H|]. unfold String_length. rewrite H, join_data_length, length_map.
  reflexivity.
Qed.

Lemma replaceAll_loop_step (t : char) (ts w : bytes) (s : String) (from : nat) :
  replaceAll_loop t ts w s from =
  match std_find (_data s) (t :: ts) from with
  | None => s
  | Some i =>
      replaceAll_loop t ts w
        (updateVersion
           (mkString (std_replace (_data s) i (length (t :: ts)) w) (_version s)))
        (i + length w)
  end.
Proof.
  rewrite replaceAll_loop_equation_1.
  destruct (inspect (std_find (_data s) (t :: ts) from)) as [[i|] H];
    simpl; rewrite H; reflexivity.
Qed.

Lemma replaceAll_loop_count (t : char) (ts w : bytes) (n : nat) :
  forall (s : String) (from : nat),
    (length (_data s) - from <= n)%nat ->
    let r := replaceAll_loop t ts w s from in
    (_version s <= _version r)%nat /\
    Z.of_nat (length (_data r))
    = Z.of_nat (length (_data s))
      + (Z.of_nat (_version r) - Z.of_nat (_version s))
        * (Z.of_nat (length w) - Z.of_nat (length (t :: ts))) /\
    firstn from (_data r) = firstn from (_data s).
Proof.
  induction n as [|n IH]; intros s from Hn; cbv zeta;
    rewrite replaceAll_loop_step;
    destruct (std_find (_data s) (t :: ts) from) as [i|] eqn:E;
    try (split; [lia | split; [lia | reflexivity]]).
  - apply std_find_bound in E. simpl in E. lia.
  - pose proof (std_find_bound _ _ _ E) as [Hle Hfit].
    set (s' := updateVersion
                 (mkString (std_replace (_data s) i (length (t :: ts)) w)
                           (_version s))).
    assert (Hlen : length (_data s') = (length (_data s) - length (t :: ts) + length w)%nat).
    { subst s'. simpl _data. unfold std_replace.
      rewrite !length_app, length_firstn, length_skipn. simpl in *. lia. }
    assert (Hm : (length (_data s') - (i + length w) <= n)%nat)
      by (simpl in *; lia).
    destruct (IH s' (i + length w)%nat Hm) as [Hv [Hl Hp]].
    split; [simpl in Hv; unfold VersionTracker_update in Hv; lia|]. split.
    + rewrite Hl, Hlen. simpl _version. unfold VersionTracker_update.
      simpl in Hfit. simpl length in *. nia.
    + apply (f_equal (firstn from)) in Hp. rewrite !firstn_firstn in Hp.
      replace (Nat.min from (i + length w)) with from in Hp by lia.
      rewrite Hp. subst s'. simpl _data. unfold std_replace.
      rewrite firstn_app, firstn_firstn, length_firstn.
      replace (Nat.min from i) with from by lia.
      replace (from - Nat.min i (length (_data s)))%nat with O by lia.
      simpl. apply app_nil_r.
Qed.

(** [replaceAll] with a target that is not empty: the version goes up by
    one for each substitution, each substitution changes the length by the
    difference of the two sizes, and when the target stands nowhere in the
    string, bytes and version stay as they were. *)
Theorem String_replaceAll_count (s : String) (target w : StringView)
  (Ht : StringView_bytes target <> []) :
  exists r,
    String_replaceAll s target w = Return r /\
    (_version s <= _version r)%nat /\
    String_length r
    = String_length s
      + (Z.of_nat (_version r) - Z.of_nat (_version s))
        * (Z.of_nat (length (StringView_bytes w))
           - Z.of_nat (length (StringView_bytes target))) /\
    (String_contains s target = false -> r = s).
Proof.
  unfold String_replaceAll, String_contains.
  destruct (StringView_bytes target) as [|t ts] eqn:Et; [congruence|].
  eexists. split; [reflexivity|].
  destruct (@replaceAll_loop_count t ts (StringView_bytes w) _ s 0 (le_n _))
    as [Hv [Hl _]].
  split; [exact Hv|]. split; [exact Hl|].
  intros H. rewrite replaceAll_loop_step.
  destruct (std_find (_data s) (t :: ts) 0); [discriminate | reflexivity].
Qed.

(** "banana" with "an" replaced by "-". *)
Lemma String_replaceAll_count_witness :
  exists r,
    String_replaceAll (text "banana") (view "an") (view "-") = Return r /\
    (_version (text "banana") <= _version r)%nat /\
    String_length r
    = String_length (text "banana")
      + (Z.of_nat (_version r) - Z.of_nat (_version (text "banana")))
        * (Z.of_nat (length (StringView_bytes (view "-")))
           - Z.of_nat (length (StringView_bytes (view "an")))) /\
    (String_contains (text "banana") (view "an") = false -> r = text "banana").
Proof.
  apply (@String_replaceAll_count (text "banana") (view "an") (view "-")).
  vm_compute. discriminate.
Defined.

(* --------------------------------------------------------------------- *)
(** ** Views, empty edits and case conversion                             *)
(* --------------------------------------------------------------------- *)

(** Inside the range of a view, [v[i]] is the byte of the range at
    position [i]; and the [String] made from the view has the size of the
    view as its length. *)
Theorem StringView_at_element (v : StringView) (i : Z)
  (Hwf : StringView_wf v) (Hi : 0 <= i < StringView_size v) :
  (exists c, StringView_at v i = Return (Some c) /\
             nth_error (StringView_bytes v) (Z.to_nat i) = Some c) /\
  String_length (String_of_view v) = StringView_size v.
Proof.
  pose proof (StringView_bytes_length Hwf) as Hsize.
  split; [|exact Hsize].
  destruct Hwf as [[Hb He] Hlen]. unfold StringView_size in *.
  unfold StringView_at, StringView_size, deref.
  destruct (i <? 0) eqn:E1; [apply Z.ltb_lt in E1; lia|].
  destruct (i >? _end v - _begin v) eqn:E2; [apply Z.gtb_lt in E2; lia|].
  destruct (_begin v + i <? 0) eqn:E3; [apply Z.ltb_lt in E3; lia|].
  simpl. unfold StringView_bytes, StringView_size.
  rewrite nth_error_firstn, nth_error_skipn.
  assert (Hlt : (Z.to_nat i <? Z.to_nat (_end v - _begin v))%nat = true)
    by (apply Nat.ltb_lt; lia).
  rewrite Hlt. replace (Z.to_nat (_begin v) + Z.to_nat i)%nat
    with (Z.to_nat (_begin v + i)) by lia.
  destruct (nth_error (storage v) (Z.to_nat (_begin v + i))) as [c|] eqn:E.
  - exists c. split; reflexivity.
  - apply nth_error_None in E. lia.
Qed.

(** The view of "abc" at index 1. *)
Lemma StringView_at_element_witness :
  (exists c, StringView_at (view "abc") 1 = Return (Some c) /\
             nth_error (StringView_bytes (view "abc")) (Z.to_nat 1) = Some c) /\
  String_length (String_of_view (view "abc")) = StringView_size (view "abc").
Proof.
  apply (@StringView_at_element (view "abc") 1).
  - apply StringView_of_string_wf.
  - vm_compute. split; [discriminate | reflexivity].
Defined.

Lemma strlen_split (buf : bytes) :
  In NUL buf ->
  exists rest, buf = firstn (strlen buf) buf ++ NUL :: rest /\
               ~ In NUL (firstn (strlen buf) buf).
Proof.
  induction buf as [|c buf IH]; simpl; [tauto|].
  destruct (char_eqb c NUL) eqn:E.
  - intros _. apply Ascii.eqb_eq in E. subst c. exists buf. simpl. tauto.
  - intros [H|H]; [subst c; unfold char_eqb in E; rewrite Ascii.eqb_refl in E;
                   discriminate|].
    destruct (IH H) as [rest [Hb Hn]]. exists rest. simpl. split.
    + f_equal. exact Hb.
    + intros [Hc|Hc]; [|exact (Hn Hc)].
      subst c. unfold char_eqb in E. rewrite Ascii.eqb_refl in E. discriminate.
Qed.

(** A view of one character holds that character; a view of a
    [std::string] holds all its bytes, zero bytes too; a null pointer is
    refused; and a view of a C string holds the bytes before the first
    terminator, none of which is zero. *)
Theorem StringView_constructors (ch : char) (t buf : bytes) :
  StringView_bytes (StringView_of_char ch) = [ch] /\
  StringView_bytes (StringView_of_string t) = t /\
  StringView_of_cstr None = error "Cannot treat a null pointer as a String." /\
  (In NUL buf ->
   exists v rest,
     StringView_of_cstr (Some buf) = Return v /\
     StringView_wf v /\
     buf = StringView_bytes v ++ NUL :: rest /\
     ~ In NUL (StringView_bytes v)).
Proof.
  split; [reflexivity|]. split; [apply StringView_bytes_of_string|].
  split; [reflexivity|]. intros H.
  destruct (strlen_split _ H) as [rest [Hb Hn]].
  destruct (StringView_of_cstr_wf _ H) as [v [Hv Hwf]].
  exists v, rest. split; [exact Hv|]. split; [exact Hwf|].
  inversion Hv; subst v. unfold StringView_bytes, StringView_size. simpl.
  rewrite Z.sub_0_r, Nat2Z.id. split; assumption.
Qed.

(** The buffer "ab", a terminator, "cd", a terminator. *)
Lemma StringView_constructors_witness :
  exists v rest,
    StringView_of_cstr (Some (str "ab" ++ NUL :: str "cd" ++ [NUL])) = Return v /\
    StringView_wf v /\
    str "ab" ++ NUL :: str "cd" ++ [NUL] = StringView_bytes v ++ NUL :: rest /\
    ~ In NUL (StringView_bytes v).
Proof.
  apply (StringView_constructors NUL [] (str "ab" ++ NUL :: str "cd" ++ [NUL])).
  simpl. tauto.
Defined.

(** Edits that change no byte still move the version on: removing zero
    bytes, inserting an empty text and appending an empty text leave the
    bytes as they are, and a cursor issued before is not valid after. *)
Theorem String_empty_edit_invalidates (s : String) (i : Z) (t : StringView)
  (c : Cursor)
  (Hi : 0 <= i <= String_length s) (Ht : StringView_size t = 0)
  (Hc : cursor_valid s c = true) :
  exists r1 r2,
    String_remove s i 0 = Return r1 /\
    String_insert s i t = Return r2 /\
    _data r1 = _data s /\ _data r2 = _data s /\
    _data (String_append s t) = _data s /\
    cursor_valid r1 c = false /\ cursor_valid r2 c = false /\
    cursor_valid (String_append s t) c = false.
Proof.
  unfold String_remove, String_insert, String_append.
  rewrite !checkIndex_in_range by lia. simpl.
  rewrite (StringView_size_empty _ Ht).
  do 2 eexists. split; [reflexivity|]. split; [reflexivity|].
  unfold cursor_valid in *. apply Nat.eqb_eq in Hc.
  cbn [_data _version updateVersion].
  unfold std_erase, std_replace. rewrite !Nat.add_0_r. cbn [app Z.to_nat].
  rewrite firstn_skipn, app_nil_r.
  repeat split; apply Nat.eqb_neq; unfold VersionTracker_update; lia.
Qed.

(** "abc", index 1, and the cursor at its beginning. *)
Lemma String_empty_edit_invalidates_witness :
  exists r1 r2,
    String_remove (text "abc") 1 0 = Return r1 /\
    String_insert (text "abc") 1 (view "") = Return r2 /\
    _data r1 = _data (text "abc") /\ _data r2 = _data (text "abc") /\
    _data (String_append (text "abc") (view "")) = _data (text "abc") /\
    cursor_valid r1 (String_begin (text "abc")) = false /\
    cursor_valid r2 (String_begin (text "abc")) = false /\
    cursor_valid (String_append (text "abc") (view "")) (String_begin (text "abc"))
    = false.
Proof.
  apply (@String_empty_edit_invalidates (text "abc") 1 (view "")
           (String_begin (text "abc")));
    vm_compute; try reflexivity. split; discriminate.
Defined.

Lemma tolower_facts (c : char) :
  isupper (tolower c) = false /\ tolower (tolower c) = tolower c /\
  toupper (tolower c) = toupper c /\ islower (toupper c) = false /\
  toupper (toupper c) = toupper c /\ tolower (toupper c) = tolower c /\
  (isalpha c = false -> tolower c = c /\ toupper c = c).
Proof.
  destruct c as [[] [] [] [] [] [] [] []]; vm_compute;
    repeat split; try reflexivity; intros; discriminate.
Qed.

(** After [toLowerCase] no byte is an upper-case letter and after
    [toUpperCase] none is a lower-case letter; converting twice is the
    same as converting once, the later conversion wins over the earlier,
    and a text without letters is left as it is. *)
Theorem String_case_conversion (s : String) :
  forallb (fun c => negb (isupper c)) (_data (String_toLowerCase s)) = true /\
  forallb (fun c => negb (islower c)) (_data (String_toUpperCase s)) = true /\
  String_toLowerCase (String_toLowerCase s) = String_toLowerCase s /\
  String_toUpperCase (String_toUpperCase s) = String_toUpperCase s /\
  String_toUpperCase (String_toLowerCase s) = String_toUpperCase s /\
  String_toLowerCase (String_toUpperCase s) = String_toLowerCase s /\
  (forallb (fun c => negb (isalpha c)) (_data s) = true ->
   _data (String_toLowerCase s) = _data s /\ _data (String_toUpperCase s) = _data s).
Proof.
  unfold String_toLowerCase, String_toUpperCase. simpl.
  rewrite !map_map.
  repeat split.
  - induction (_data s) as [|c l IH]; simpl; [reflexivity|].
    rewrite (proj1 (tolower_facts c)), IH. reflexivity.
  - induction (_data s) as [|c l IH]; simpl; [reflexivity|].
    destruct (tolower_facts c) as [_ [_ [_ [H _]]]]. rewrite H, IH. reflexivity.
  - f_equal. apply map_ext. intros c. apply (tolower_facts c).
  - f_equal. apply map_ext. intros c. apply (tolower_facts c).
  - f_equal. apply map_ext. intros c. apply (tolower_facts c).
  - f_equal. apply map_ext. intros c. apply (tolower_facts c).
  - induction (_data s) as [|c l IH]; simpl in *; [reflexivity|].
    apply andb_prop in H as [Hc Hl]. apply negb_true_iff in Hc.
    destruct (tolower_facts c) as [_ [_ [_ [_ [_ [_ Hn]]]]]].
    rewrite (proj1 (Hn Hc)), (IH Hl). reflexivity.
  - induction (_data s) as [|c l IH]; simpl in *; [reflexivity|].
    apply andb_prop in H as [Hc Hl]. apply negb_true_iff in Hc.
    destruct (tolower_facts c) as [_ [_ [_ [_ [_ [_ Hn]]]]]].
    rewrite (proj2 (Hn Hc)), (IH Hl). reflexivity.
Qed.

(** "12-34", which has no letter. *)
Lemma String_case_conversion_witness :
  _data (String_toLowerCase (text "12-34")) = _data (text "12-34") /\
  _data (String_toUpperCase (text "12-34")) = _data (text "12-34").
Proof.
  apply (String_case_conversion (text "12-34")). reflexivity.
Defined.
